(** * Trace conclusion checker (worker/src/services)

    A shallow embedding of [TraceConclusionService], of the
    [notifyTraceConcluded] helper it calls, of [TraceConclusionRunner.execute]
    and of the detection query it sends to ClickHouse, with the properties of
    the design document stated over them.

    Effects are modelled by a state-and-exception monad over a [World] that
    records every log line and every outbound call; the answers of the two
    external services (ClickHouse, the HTTP API) come from an [Env]. *)

From Stdlib Require Import String Ascii List ZArith Lia Bool Arith DecimalString.
Import ListNotations.

Open Scope string_scope.
Open Scope list_scope.

(** ** JavaScript helpers *)

Module JS.

(** The line feed of a template literal that spans lines. *)
Definition nl : string := String (ascii_of_nat 10) EmptyString.

(** [`${n}`] for a non-negative integer [n]. *)
Definition showNat (n : nat) : string := NilZero.string_of_uint (Nat.to_uint n).

(** [String.prototype.includes] (vitest's [toContain] and
    [expect.stringContaining] on strings). *)
Fixpoint includes (pat s : string) : bool :=
  prefix pat s ||
  match s with
  | EmptyString => false
  | String _ s' => includes pat s'
  end.

(** A thrown value: an [Error] with its [name] and [message]. *)
Record Error := mkError { name : string; message : string }.

(** [`${err}`], that is [Error.prototype.toString]: the name alone when the
    message is empty, the message alone when the name is empty, and otherwise
    the two with a colon between them. *)
Definition errorToString (e : Error) : string :=
  match name e, message e with
  | EmptyString, msg => msg
  | nm, EmptyString => nm
  | nm, msg => nm ++ ": " ++ msg
  end.

End JS.

(** ** Effects: the logger, ClickHouse and the HTTP API *)

Module Effects.
Import JS.

Inductive Level := Debug | Info | Warn | Err.

(** One call of [logger.debug], [logger.info] or [logger.error]: the text
    and, when one is passed as second argument, the error object. *)
Record LogEntry := mkLog {
  level : Level;
  text : string;
  cause : option Error
}.

(** A call that leaves the process.  [QueryCall] is
    [queryClickhouse({query, params, tags})]; [PostCall] is
    [axios.post(url, body)]; [NotifyCall] is one call of a notification
    interface that is supplied from outside (a test double). *)
Inductive Call :=
| QueryCall (query : string) (params tags : list (string * string))
| PostCall (url : string) (body : list (string * string))
| NotifyCall (traceId : string).

(** Rows shaped [{ trace_id: string }]. *)
Record Row := mkRow { trace_id : string }.

Inductive QueryAnswer :=
| Rows (rows : list Row)
| Rejected (e : Error).

Inductive HttpAnswer :=
| Status (code : Z)
| TransportError (e : Error).

(** The surroundings of the worker: configuration and the behaviour of the
    two services, each free to depend on the calls made so far. *)
Record Env := mkEnv {
  API_BASE_URL : string;
  clickhouse : list Call -> string -> QueryAnswer;
  api : list Call -> string -> list (string * string) -> HttpAnswer
}.

Record World := mkWorld {
  logs : list LogEntry;
  calls : list Call
}.

Inductive Outcome (A : Type) :=
| Returned (a : A)
| Thrown (e : Error).
Arguments Returned {A} a.
Arguments Thrown {A} e.

(** An [async] function body: it runs on a world and either returns or
    throws (its promise resolves or rejects). *)
Definition M (A : Type) : Type := World -> Outcome A * World.

Definition ret {A} (a : A) : M A := fun w => (Returned a, w).

Definition throw {A} (e : Error) : M A := fun w => (Thrown e, w).

Definition bind {A B} (c : M A) (k : A -> M B) : M B :=
  fun w =>
    match c w with
    | (Returned a, w') => k a w'
    | (Thrown e, w') => (Thrown e, w')
    end.

(** [try { body } catch (error) { handler }] *)
Definition try_catch {A} (body : M A) (handler : Error -> M A) : M A :=
  fun w =>
    match body w with
    | (Returned a, w') => (Returned a, w')
    | (Thrown e, w') => handler e w'
    end.

Definition add_log (e : LogEntry) (w : World) : World :=
  mkWorld (logs w ++ [e]) (calls w).

Definition add_call (c : Call) (w : World) : World :=
  mkWorld (logs w) (calls w ++ [c]).

Definition logger_debug (msg : string) : M unit :=
  fun w => (Returned tt, add_log (mkLog Debug msg None) w).

Definition logger_info (msg : string) : M unit :=
  fun w => (Returned tt, add_log (mkLog Info msg None) w).

Definition logger_error (msg : string) (error : option Error) : M unit :=
  fun w => (Returned tt, add_log (mkLog Err msg error) w).

(** [queryClickhouse]: resolves with the rows or rejects. *)
Definition queryClickhouse (env : Env) (query : string)
    (params tags : list (string * string)) : M (list Row) :=
  fun w =>
    let w' := add_call (QueryCall query params tags) w in
    match clickhouse env (calls w) query with
    | Rows rows => (Returned rows, w')
    | Rejected e => (Thrown e, w')
    end.

(** The default [validateStatus] of axios. *)
Definition validateStatus (code : Z) : bool := ((200 <=? code) && (code <? 300))%Z.

(** [axios.post]: the promise resolves for a status that [validateStatus]
    accepts and rejects for any other status and for an error of the
    transport. *)
Definition axios_post (env : Env) (url : string) (body : list (string * string)) : M Z :=
  fun w =>
    let w' := add_call (PostCall url body) w in
    match api env (calls w) url body with
    | Status code =>
        if validateStatus code then (Returned code, w')
        else (Thrown (mkError "AxiosError"
                        ("Request failed with status code " ++ NilZero.string_of_int (Z.to_int code))), w')
    | TransportError e => (Thrown e, w')
    end.

(** A notification interface supplied from outside: the call is recorded and
    [answer], which sees the calls made so far, says whether it fails. *)
Definition externalNotifier (answer : list Call -> string -> option Error)
    (traceId : string) : M unit :=
  fun w =>
    let w' := add_call (NotifyCall traceId) w in
    match answer (calls w) traceId with
    | None => (Returned tt, w')
    | Some e => (Thrown e, w')
    end.

Declare Scope monad_scope.
Delimit Scope monad_scope with monad.
Notation "x <- c ;; k" := (bind c (fun x => k))
  (at level 61, c at next level, right associativity) : monad_scope.
Notation "c ;; k" := (bind c (fun _ => k))
  (at level 61, right associativity) : monad_scope.

End Effects.

(** ** packages/shared/src/server/repositories/observations.ts *)

Module Observations.
Import JS Effects.
Local Open Scope monad_scope.

(** [notifyTraceConcluded], as TRACE_CONCLUSION_CHECKER.md gives it: the
    [catch] clause logs the error of the POST and the function returns. *)
Definition notifyTraceConcluded (env : Env) (traceId : string) : M unit :=
  try_catch
    (_ <- axios_post env (API_BASE_URL env ++ "/api/features/analyze")
                         [("trace_id", traceId)] ;;
     ret tt)
    (fun err =>
       logger_error ("Failed to notify features analyze: " ++ errorToString err) None).

End Observations.

(** ** worker/src/services/TraceConclusionService.ts *)

Module TraceConclusionService.
Import JS Effects.
Local Open Scope monad_scope.

Definition INACTIVITY_THRESHOLD_SECONDS : nat := 60.

(** The template literal of [findConcludedTraces], line by line, with the
    threshold interpolated twice. *)
Definition buildQuery (threshold : nat) : string :=
  nl ++
  "      WITH trace_latest_updates AS (" ++ nl ++
  "        SELECT" ++ nl ++
  "          trace_id," ++ nl ++
  "          max(updated_at) as last_updated" ++ nl ++
  "        FROM observations FINAL" ++ nl ++
  "        WHERE updated_at < now() - INTERVAL " ++ showNat threshold ++ " SECOND" ++ nl ++
  "        GROUP BY trace_id" ++ nl ++
  "      )" ++ nl ++
  "      SELECT DISTINCT" ++ nl ++
  "        t.id as trace_id" ++ nl ++
  "      FROM traces FINAL t" ++ nl ++
  "      INNER JOIN trace_latest_updates tlu ON t.id = tlu.trace_id" ++ nl ++
  "      WHERE NOT has(mapKeys(t.metadata), 'feature_id')" ++ nl ++
  "      AND t.timestamp < now() - INTERVAL " ++ showNat threshold ++ " SECOND" ++ nl ++
  "      LIMIT 1000" ++ nl ++
  "    ".

Definition queryTags : list (string * string) :=
  [("feature", "trace-conclusion"); ("type", "query"); ("kind", "find-concluded")].

Definition findConcludedTraces (env : Env) : M (list string) :=
  let query := buildQuery INACTIVITY_THRESHOLD_SECONDS in
  try_catch
    (results <- queryClickhouse env query [] queryTags ;;
     let traceIds := map trace_id results in
     _ <- (if (0 <? length traceIds)%nat
           then logger_info ("Found " ++ showNat (length traceIds)
                             ++ " concluded traces ready for processing")
           else ret tt) ;;
     ret traceIds)
    (fun error =>
       _ <- logger_error "Failed to query concluded traces:" (Some error) ;;
       ret []).

(** The [for ... of] loop of [processConcludedTraces]; the two counters are
    the loop's state.  [notify] is the function the loop awaits. *)
Fixpoint notifyEach (notify : string -> M unit) (traceIds : list string)
    (successCount failureCount : nat) : M (nat * nat) :=
  match traceIds with
  | [] => ret (successCount, failureCount)
  | traceId :: rest =>
      counts <- try_catch
        (_ <- notify traceId ;;
         _ <- logger_debug ("Successfully notified trace concluded: " ++ traceId) ;;
         ret (S successCount, failureCount))
        (fun error =>
           _ <- logger_error ("Failed to notify trace concluded for " ++ traceId ++ ":")
                             (Some error) ;;
           ret (successCount, S failureCount)) ;;
      notifyEach notify rest (fst counts) (snd counts)
  end.

Definition summary (successCount failureCount : nat) : string :=
  "Processed concluded traces: " ++ showNat successCount ++ " succeeded, "
    ++ showNat failureCount ++ " failed".

Definition processConcludedTracesWith (notify : string -> M unit)
    (traceIds : list string) : M nat :=
  if (length traceIds =? 0)%nat then ret 0
  else
    _ <- logger_info ("Processing " ++ showNat (length traceIds) ++ " concluded traces") ;;
    counts <- notifyEach notify traceIds 0 0 ;;
    _ <- logger_info (summary (fst counts) (snd counts)) ;;
    ret (fst counts).

Definition processConcludedTraces (env : Env) : list string -> M nat :=
  processConcludedTracesWith (Observations.notifyTraceConcluded env).

(** [checkAndProcessConcludedTraces] calls its two collaborators through
    [this]; they are arguments here so that a cycle can be run against any
    detector and any notifier. *)
Definition checkAndProcessWith (find : M (list string))
    (process : list string -> M nat) : M nat :=
  try_catch
    (traceIds <- find ;;
     process traceIds)
    (fun error =>
       _ <- logger_error "Error in trace conclusion check:" (Some error) ;;
       ret 0).

Definition checkAndProcessConcludedTraces (env : Env) : M nat :=
  checkAndProcessWith (findConcludedTraces env) (processConcludedTraces env).

End TraceConclusionService.

(** ** worker/src/services/TraceConclusionRunner.ts *)

Module TraceConclusionRunner.
Import JS Effects.
Local Open Scope monad_scope.

Definition name : string := "TraceConclusionRunner".

(** The constructor's default interval, [60_000] ms. *)
Definition defaultIntervalMs : Z := 60000%Z.

(** [execute], over the service's entry point. *)
Definition executeWith (checkAndProcess : M nat) : M unit :=
  _ <- logger_debug "Starting trace conclusion check" ;;
  processedCount <- checkAndProcess ;;
  if (0 <? processedCount)%nat
  then logger_info ("Trace conclusion check: processed " ++ showNat processedCount ++ " traces")
  else logger_debug "Trace conclusion check: no traces to process".

Definition execute (env : Env) : M unit :=
  executeWith (TraceConclusionService.checkAndProcessConcludedTraces env).

End TraceConclusionRunner.

(** ** worker/src/utils/PeriodicRunner.ts *)

Module PeriodicRunner.

(** Modelled from the spec: the file of [PeriodicRunner] is not among the
    sources.  What can happen to a runner: [start()] and [stop()] are
    called, the interval timer fires, the invocation in flight completes (it
    resolved, or it rejected and the error was logged). *)
Inductive Event := Start | Stop | Tick | Done.

(** Modelled from the spec: the running/stopped flag of the scheduler, with
    the invocations in flight and two counters kept for the statements. *)
Record Runner := mkRunner {
  active : bool;      (* started and not stopped *)
  inFlight : nat;     (* invocations of [execute] not yet completed *)
  launched : nat;     (* invocations begun so far *)
  skipped : nat       (* ticks dropped because one was in flight *)
}.

(** Modelled from the spec: a runner that was never started. *)
Definition initial : Runner := mkRunner false 0 0 0.

(** Modelled from the spec: a tick of an active runner begins an invocation when none is
    in flight and is dropped otherwise; nothing is queued. *)
Definition fire (r : Runner) : Runner :=
  if active r then
    if (inFlight r =? 0)%nat
    then mkRunner true (S (inFlight r)) (S (launched r)) (skipped r)
    else mkRunner true (inFlight r) (launched r) (S (skipped r))
  else r.

(** Modelled from the spec: [start()] fires at once and then on every tick;
    [stop()] lets the invocation in flight complete and begins no other; a
    completion only frees the runner. *)
Definition step (r : Runner) (e : Event) : Runner :=
  match e with
  | Start =>
      if active r then r
      else fire (mkRunner true (inFlight r) (launched r) (skipped r))
  | Stop => mkRunner false (inFlight r) (launched r) (skipped r)
  | Tick => fire r
  | Done => mkRunner (active r) (pred (inFlight r)) (launched r) (skipped r)
  end.

(** Modelled from the spec: the runner after a history of events. *)
Definition run (events : list Event) : Runner := fold_left step events initial.

End PeriodicRunner.


(** ** Vocabulary of the statements *)

Module Cycle.
Import JS Effects TraceConclusionService.

(** The call [findConcludedTraces] makes to ClickHouse. *)
Definition detectionCall : Call :=
  QueryCall (buildQuery INACTIVITY_THRESHOLD_SECONDS) [] queryTags.

(** The POST [notifyTraceConcluded] makes for a trace. *)
Definition analyzeCall (env : Env) (traceId : string) : Call :=
  PostCall (API_BASE_URL env ++ "/api/features/analyze") [("trace_id", traceId)].

(** Whether the HTTP API makes the POST for [traceId] fail, asked after the
    calls [history]. *)
Definition httpFails (env : Env) (history : list Call) (traceId : string) : bool :=
  match api env history (API_BASE_URL env ++ "/api/features/analyze")
            [("trace_id", traceId)] with
  | Status code => negb (validateStatus code)
  | TransportError _ => true
  end.

(** How many calls of an outside notification interface succeed when the
    candidates are notified in order after the calls [history]. *)
Fixpoint succeeded (answer : list Call -> string -> option Error)
    (history : list Call) (traceIds : list string) : nat :=
  match traceIds with
  | [] => 0
  | traceId :: rest =>
      (match answer history traceId with None => 1 | Some _ => 0 end)
      + succeeded answer (history ++ [NotifyCall traceId]) rest
  end.

(** The summary line of [processConcludedTraces]. *)
Definition summaryEntry (successCount failureCount : nat) : LogEntry :=
  mkLog Info (summary successCount failureCount) None.

Definition nothingToProcess : LogEntry :=
  mkLog Debug "Trace conclusion check: no traces to process" None.

Definition cycleStarting : LogEntry :=
  mkLog Debug "Starting trace conclusion check" None.

Definition emptyWorld : World := mkWorld [] [].

End Cycle.

(** ** Scenarios of the test suite *)

Module Scenario.
Import JS Effects.

Definition base : string := "http://localhost:3000".

(** [mockRejectedValueOnce(new Error("ClickHouse error"))] *)
Definition storeDown : Env :=
  mkEnv base
    (fun _ _ => Rejected (mkError "Error" "ClickHouse error"))
    (fun _ _ _ => Status 200).

(** [mockResolvedValueOnce([])] *)
Definition storeEmpty : Env :=
  mkEnv base (fun _ _ => Rows []) (fun _ _ _ => Status 200).

(** Two concluded traces and an API that accepts every POST. *)
Definition twoTraces : Env :=
  mkEnv base
    (fun _ _ => Rows [mkRow "trace-1"; mkRow "trace-2"])
    (fun _ _ _ => Status 200).

Definition isPost (c : Call) : bool :=
  match c with PostCall _ _ => true | _ => false end.

(** The first POST resolves, the second rejects with [new Error("API
    error")], the third resolves. *)
Definition secondPostFails : Env :=
  mkEnv base
    (fun _ _ => Rows [])
    (fun history _ _ =>
       if (length (filter isPost history) =? 1)%nat
       then TransportError (mkError "Error" "API error")
       else Status 200).

(** The API answers 500 to every POST. *)
Definition apiDown : Env :=
  mkEnv base (fun _ _ => Rows []) (fun _ _ _ => Status 500).

(** An outside notifier whose second call fails. *)
Definition secondCallFails (history : list Call) (traceId : string) : option Error :=
  if (length history =? 1)%nat then Some (mkError "Error" "API error") else None.

(** A detector that throws and a notifier that throws. *)
Definition brokenDetector : M (list string) :=
  throw (mkError "TypeError" "results.map is not a function").

Definition brokenNotifier (traceIds : list string) : M nat :=
  throw (mkError "RangeError" "out of memory").

(** A notifier that leaves a mark and returns 7 whatever it is given. *)
Definition markingNotifier (traceIds : list string) : M nat :=
  bind (logger_debug "processConcludedTraces called") (fun _ => ret 7).

(** A ClickHouse that holds one concluded trace, [trace-1].  ClickHouse reads
    the alias of a table before [FINAL]: it rejects a text in which the alias
    follows [FINAL], as in [FROM traces FINAL t], and it answers the
    detection query with [trace-1] otherwise. *)
Definition concludedStore : Env :=
  mkEnv base
    (fun _ query =>
       if includes "FROM traces FINAL t" query
       then Rejected (mkError "Error" "Syntax error")
       else Rows [mkRow "trace-1"])
    (fun _ _ _ => Status 200).

End Scenario.

(** ** Vocabulary of the further statements *)

Module Reading.
Import JS Effects TraceConclusionService Cycle.

(** The error [axios.post] rejects with for the POST of [traceId], if it
    does. *)
Definition postError (env : Env) (history : list Call) (traceId : string) : option Error :=
  match api env history (API_BASE_URL env ++ "/api/features/analyze")
            [("trace_id", traceId)] with
  | Status code =>
      if validateStatus code then None
      else Some (mkError "AxiosError"
                   ("Request failed with status code "
                    ++ NilZero.string_of_int (Z.to_int code)))
  | TransportError e => Some e
  end.

(** How many of the POSTs for the candidates the API accepts, the
    candidates being posted in order after the calls [history]. *)
Fixpoint accepted (env : Env) (history : list Call) (traceIds : list string) : nat :=
  match traceIds with
  | [] => 0
  | traceId :: rest =>
      (if httpFails env history traceId then 0 else 1)
      + accepted env (history ++ [analyzeCall env traceId]) rest
  end.

Definition processingEntry (count : nat) : LogEntry :=
  mkLog Info ("Processing " ++ showNat count ++ " concluded traces") None.

Definition processedEntry (count : nat) : LogEntry :=
  mkLog Info ("Trace conclusion check: processed " ++ showNat count ++ " traces") None.

Definition notifiedEntry (traceId : string) : LogEntry :=
  mkLog Debug ("Successfully notified trace concluded: " ++ traceId) None.

Definition failedEntry (traceId : string) (e : Error) : LogEntry :=
  mkLog Err ("Failed to notify trace concluded for " ++ traceId ++ ":") (Some e).

Definition swallowedEntry (e : Error) : LogEntry :=
  mkLog Err ("Failed to notify features analyze: " ++ errorToString e) None.

(** The lines a pass writes between its opening line and its summary, with a
    notification interface supplied from outside. *)
Fixpoint externalLines (answer : list Call -> string -> option Error)
    (history : list Call) (traceIds : list string) : list LogEntry :=
  match traceIds with
  | [] => []
  | traceId :: rest =>
      (match answer history traceId with
       | None => notifiedEntry traceId
       | Some e => failedEntry traceId e
       end) :: externalLines answer (history ++ [NotifyCall traceId]) rest
  end.

(** The same with [notifyTraceConcluded]. *)
Fixpoint notifyLines (env : Env) (history : list Call) (traceIds : list string)
    : list LogEntry :=
  match traceIds with
  | [] => []
  | traceId :: rest =>
      (match postError env history traceId with
       | None => []
       | Some e => [swallowedEntry e]
       end)
      ++ notifiedEntry traceId
      :: notifyLines env (history ++ [analyzeCall env traceId]) rest
  end.

End Reading.

(** ** The media storage client (the module printed at the end of
    TRACE_CONCLUSION_CHECKER.md) *)

Module MediaStorage.
Import JS Effects.

(** The variables of [env] the function reads. *)
Record MediaEnv := mkMediaEnv {
  ELASTICDASH_S3_MEDIA_UPLOAD_ACCESS_KEY_ID : option string;
  ELASTICDASH_S3_MEDIA_UPLOAD_SECRET_ACCESS_KEY : option string;
  ELASTICDASH_S3_MEDIA_UPLOAD_ENDPOINT : option string;
  ELASTICDASH_S3_MEDIA_UPLOAD_REGION : option string;
  ELASTICDASH_S3_MEDIA_UPLOAD_FORCE_PATH_STYLE : string;
  ELASTICDASH_S3_MEDIA_UPLOAD_SSE : option string;
  ELASTICDASH_S3_MEDIA_UPLOAD_SSE_KMS_KEY_ID : option string
}.

(** The argument of [StorageServiceFactory.getInstance]. *)
Record Config := mkConfig {
  bucketName : string;
  accessKeyId : option string;
  secretAccessKey : option string;
  endpoint : option string;
  region : option string;
  forcePathStyle : bool;
  awsSse : option string;
  awsSseKmsKeyId : option string
}.

Definition configFor (env : MediaEnv) (bucket : string) : Config :=
  mkConfig bucket
    (ELASTICDASH_S3_MEDIA_UPLOAD_ACCESS_KEY_ID env)
    (ELASTICDASH_S3_MEDIA_UPLOAD_SECRET_ACCESS_KEY env)
    (ELASTICDASH_S3_MEDIA_UPLOAD_ENDPOINT env)
    (ELASTICDASH_S3_MEDIA_UPLOAD_REGION env)
    (String.eqb (ELASTICDASH_S3_MEDIA_UPLOAD_FORCE_PATH_STYLE env) "true")
    (ELASTICDASH_S3_MEDIA_UPLOAD_SSE env)
    (ELASTICDASH_S3_MEDIA_UPLOAD_SSE_KMS_KEY_ID env).

(** The module: its variable [s3StorageServiceClient], unset at load, and
    the calls made to the factory so far. *)
Record State (StorageService : Type) := mkState {
  s3StorageServiceClient : option StorageService;
  built : list Config
}.
Arguments mkState {StorageService} _ _.
Arguments s3StorageServiceClient {StorageService} _.
Arguments built {StorageService} _.

Definition loaded {StorageService : Type} : State StorageService := mkState None [].

(** [getMediaStorageServiceClient].  [getInstance] is the factory, which
    returns a client or throws. *)
Definition getMediaStorageServiceClient {StorageService : Type}
    (env : MediaEnv) (getInstance : Config -> Error + StorageService)
    (bucket : string) (st : State StorageService)
    : Outcome StorageService * State StorageService :=
  match s3StorageServiceClient st with
  | Some client => (Returned client, st)
  | None =>
      let config := configFor env bucket in
      match getInstance config with
      | inr client => (Returned client, mkState (Some client) (built st ++ [config]))
      | inl e => (Thrown e, mkState None (built st ++ [config]))
      end
  end.

(** One call after the other, for a list of bucket names. *)
Fixpoint getEach {StorageService : Type}
    (env : MediaEnv) (getInstance : Config -> Error + StorageService)
    (buckets : list string) (st : State StorageService)
    : list (Outcome StorageService) * State StorageService :=
  match buckets with
  | [] => ([], st)
  | bucket :: rest =>
      let (r, st1) := getMediaStorageServiceClient env getInstance bucket st in
      let (rs, st2) := getEach env getInstance rest st1 in
      (r :: rs, st2)
  end.

End MediaStorage.

(** ** web/src/initialize.ts *)

Module Initialize.
Import JS Effects.

(** The [ELASTICDASH_INIT_*] variables of [env]. *)
Record InitEnv := mkInitEnv {
  ELASTICDASH_INIT_ORG_ID : option string;
  ELASTICDASH_INIT_ORG_NAME : option string;
  ELASTICDASH_INIT_ORG_CLOUD_PLAN : option string;
  ELASTICDASH_INIT_PROJECT_ID : option string;
  ELASTICDASH_INIT_PROJECT_NAME : option string;
  ELASTICDASH_INIT_PROJECT_RETENTION : option Z;
  ELASTICDASH_INIT_PROJECT_PUBLIC_KEY : option string;
  ELASTICDASH_INIT_PROJECT_SECRET_KEY : option string;
  ELASTICDASH_INIT_USER_EMAIL : option string;
  ELASTICDASH_INIT_USER_NAME : option string;
  ELASTICDASH_INIT_USER_PASSWORD : option string
}.

(** A string variable in a condition: [undefined] and the empty string are
    falsy.  The string is returned when it is truthy. *)
Definition truthy (v : option string) : option string :=
  match v with
  | Some (String c s) => Some (String c s)
  | _ => None
  end.

(** A number in a condition: [undefined] and 0 are falsy. *)
Definition truthyNumber (v : option Z) : option Z :=
  match v with
  | Some n => if (n =? 0)%Z then None else Some n
  | None => None
  end.

Definition isSet {A : Type} (v : option A) : bool :=
  match v with Some _ => true | None => false end.

(** [v ?? d] *)
Definition orElse (v : option string) (d : string) : string :=
  match v with Some s => s | None => d end.

(** The calls the script makes to the database, through prisma and through
    the two helpers [createAndAddApiKeysToDb] and [createUserEmailPassword],
    with the arguments that vary; the constants ([update], [role], [note],
    [scope]) are left out. *)
Inductive DbOp :=
| OrganizationUpsert (id name : string) (cloudConfig : option string)
| ProjectUpsert (id name orgId : string) (retentionDays : option Z)
| ApiKeyFindUnique (publicKey : string)
| ApiKeyDelete (publicKey : string)
| CreateAndAddApiKeysToDb (entityId secretKey publicKey : string)
| UserFindUnique (email : string)
| CreateUserEmailPassword (email password name : string)
| OrganizationMembershipUpsert (userId orgId : string).

(** What lies outside the script.  Every call to the database may reject;
    its answer may depend on the calls made before it. *)
Record Services := mkServices {
  (* [CloudConfigSchema.parse({ plan })]: the parsed object, or a throw *)
  cloudConfigParse : string -> Error + string;
  (* [hasEntitlementBasedOnPlan] on the plan of the instance *)
  hasRetentionEntitlement : bool;
  (* the [id] of the organization the upsert returns *)
  organizationUpsert : list DbOp -> string -> string -> option string -> Error + string;
  projectUpsert : list DbOp -> string -> string -> string -> option Z -> option Error;
  (* the [projectId] of the key found, if one is found *)
  apiKeyFindUnique : list DbOp -> string -> Error + option string;
  apiKeyDelete : list DbOp -> string -> option Error;
  createAndAddApiKeysToDb : list DbOp -> string -> string -> string -> option Error;
  (* the [id] of the user found, if one is found *)
  userFindUnique : list DbOp -> string -> Error + option string;
  (* the id of the user created *)
  createUserEmailPassword : list DbOp -> string -> string -> string -> Error + string;
  organizationMembershipUpsert : list DbOp -> string -> string -> option Error;
  (* [String.prototype.toLowerCase] *)
  toLowerCase : string -> string
}.

Record Run := mkRun {
  warnings : list string;     (* the calls of [logger.warn] *)
  ops : list DbOp
}.

Definition start : Run := mkRun [] [].

Definition IM (A : Type) : Type := Run -> Outcome A * Run.

Definition iret {A} (a : A) : IM A := fun r => (Returned a, r).

Definition ibind {A B} (c : IM A) (k : A -> IM B) : IM B :=
  fun r =>
    match c r with
    | (Returned a, r') => k a r'
    | (Thrown e, r') => (Thrown e, r')
    end.

Definition logger_warn (msg : string) : IM unit :=
  fun r => (Returned tt, mkRun (warnings r ++ [msg]) (ops r)).

(** A database call that resolves with a value or rejects. *)
Definition call {A} (op : DbOp) (answer : list DbOp -> Error + A) : IM A :=
  fun r =>
    let r' := mkRun (warnings r) (ops r ++ [op]) in
    match answer (ops r) with
    | inr a => (Returned a, r')
    | inl e => (Thrown e, r')
    end.

(** A database call whose value is not used. *)
Definition exec (op : DbOp) (answer : list DbOp -> option Error) : IM unit :=
  fun r =>
    let r' := mkRun (warnings r) (ops r ++ [op]) in
    match answer (ops r) with
    | None => (Returned tt, r')
    | Some e => (Thrown e, r')
    end.

Definition when (b : bool) (c : IM unit) : IM unit := if b then c else iret tt.

Local Notation "x <- c ;; k" := (ibind c (fun x => k))
  (at level 61, c at next level, right associativity).

(** [[env.X && "X", ...].filter(Boolean)] *)
Definition setInitVars (env : InitEnv) : list string :=
  flat_map (fun entry : bool * string => if fst entry then [snd entry] else [])
    [(isSet (truthy (ELASTICDASH_INIT_ORG_NAME env)), "ELASTICDASH_INIT_ORG_NAME");
     (isSet (truthy (ELASTICDASH_INIT_ORG_CLOUD_PLAN env)), "ELASTICDASH_INIT_ORG_CLOUD_PLAN");
     (isSet (truthy (ELASTICDASH_INIT_PROJECT_ID env)), "ELASTICDASH_INIT_PROJECT_ID");
     (isSet (truthy (ELASTICDASH_INIT_PROJECT_NAME env)), "ELASTICDASH_INIT_PROJECT_NAME");
     (isSet (truthyNumber (ELASTICDASH_INIT_PROJECT_RETENTION env)),
      "ELASTICDASH_INIT_PROJECT_RETENTION");
     (isSet (truthy (ELASTICDASH_INIT_PROJECT_PUBLIC_KEY env)),
      "ELASTICDASH_INIT_PROJECT_PUBLIC_KEY");
     (isSet (truthy (ELASTICDASH_INIT_PROJECT_SECRET_KEY env)),
      "ELASTICDASH_INIT_PROJECT_SECRET_KEY");
     (isSet (truthy (ELASTICDASH_INIT_USER_EMAIL env)), "ELASTICDASH_INIT_USER_EMAIL");
     (isSet (truthy (ELASTICDASH_INIT_USER_NAME env)), "ELASTICDASH_INIT_USER_NAME");
     (isSet (truthy (ELASTICDASH_INIT_USER_PASSWORD env)), "ELASTICDASH_INIT_USER_PASSWORD")].

Definition ignoredWarning (vars : list string) : string :=
  "[ElasticDash Init] ELASTICDASH_INIT_ORG_ID is not set but other ELASTICDASH_INIT_* variables are configured. "
  ++ "The following variables will be ignored: " ++ String.concat ", " vars ++ ". "
  ++ "Set ELASTICDASH_INIT_ORG_ID to enable initialization.".

Definition partialKeyWarning (missingKey : string) : string :=
  "[ElasticDash Init] Partial API key configuration: " ++ missingKey ++ " is not set. "
  ++ "Both ELASTICDASH_INIT_PROJECT_PUBLIC_KEY and ELASTICDASH_INIT_PROJECT_SECRET_KEY must be set to create API keys.".

Definition keysWithoutProjectWarning : string :=
  "[ElasticDash Init] ELASTICDASH_INIT_PROJECT_ID is not set but API key variables are configured. "
  ++ "API keys will not be created. Set ELASTICDASH_INIT_PROJECT_ID to enable API key creation.".

Definition partialUserWarning (missingVar : string) : string :=
  "[ElasticDash Init] Partial user configuration: " ++ missingVar ++ " is not set. "
  ++ "Both ELASTICDASH_INIT_USER_EMAIL and ELASTICDASH_INIT_USER_PASSWORD must be set to create a user.".

(** Lines 10-35: the warning when [ELASTICDASH_INIT_ORG_ID] is missing. *)
Definition warnIgnored (env : InitEnv) : IM unit :=
  when (negb (isSet (truthy (ELASTICDASH_INIT_ORG_ID env))))
    (when (0 <? length (setInitVars env))%nat
       (logger_warn (ignoredWarning (setInitVars env)))).

(** Lines 55-89: the warnings about partial configurations. *)
Definition warnPartial (env : InitEnv) : IM unit :=
  let hasPublicKey := isSet (truthy (ELASTICDASH_INIT_PROJECT_PUBLIC_KEY env)) in
  let hasSecretKey := isSet (truthy (ELASTICDASH_INIT_PROJECT_SECRET_KEY env)) in
  let hasEmail := isSet (truthy (ELASTICDASH_INIT_USER_EMAIL env)) in
  let hasPassword := isSet (truthy (ELASTICDASH_INIT_USER_PASSWORD env)) in
  _ <- when (negb (Bool.eqb hasPublicKey hasSecretKey))
         (logger_warn (partialKeyWarning
            (if hasPublicKey then "ELASTICDASH_INIT_PROJECT_SECRET_KEY"
             else "ELASTICDASH_INIT_PROJECT_PUBLIC_KEY"))) ;;
  _ <- when ((hasPublicKey || hasSecretKey)
             && negb (isSet (truthy (ELASTICDASH_INIT_PROJECT_ID env))))
         (logger_warn keysWithoutProjectWarning) ;;
  when (negb (Bool.eqb hasEmail hasPassword))
    (logger_warn (partialUserWarning
       (if hasEmail then "ELASTICDASH_INIT_USER_PASSWORD"
        else "ELASTICDASH_INIT_USER_EMAIL"))).

(** Lines 113-148: the API key of the project. *)
Definition addApiKeys (sv : Services) (projectId secretKey publicKey : string) : IM unit :=
  existingApiKey <- call (ApiKeyFindUnique publicKey)
                         (fun h => apiKeyFindUnique sv h publicKey) ;;
  let projectChanged :=
    match existingApiKey with
    | Some keyProject => negb (String.eqb keyProject projectId)
    | None => false
    end in
  _ <- when projectChanged
         (exec (ApiKeyDelete publicKey) (fun h => apiKeyDelete sv h publicKey)) ;;
  when (negb (isSet existingApiKey) || projectChanged)
    (exec (CreateAndAddApiKeysToDb projectId secretKey publicKey)
          (fun h => createAndAddApiKeysToDb sv h projectId secretKey publicKey)).

(** Lines 91-149: the project and its API key. *)
Definition createProject (sv : Services) (env : InitEnv) (orgId : string) : IM unit :=
  match truthy (ELASTICDASH_INIT_PROJECT_ID env) with
  | None => iret tt
  | Some projectId =>
      let retentionDays :=
        match truthyNumber (ELASTICDASH_INIT_PROJECT_RETENTION env) with
        | Some days => if hasRetentionEntitlement sv then Some days else None
        | None => None
        end in
      let name := orElse (ELASTICDASH_INIT_PROJECT_NAME env) "Provisioned Project" in
      _ <- exec (ProjectUpsert projectId name orgId retentionDays)
                (fun h => projectUpsert sv h projectId name orgId retentionDays) ;;
      match truthy (ELASTICDASH_INIT_PROJECT_SECRET_KEY env),
            truthy (ELASTICDASH_INIT_PROJECT_PUBLIC_KEY env) with
      | Some secretKey, Some publicKey => addApiKeys sv projectId secretKey publicKey
      | _, _ => iret tt
      end
  end.

(** Lines 151-181: the user and the membership. *)
Definition createUser (sv : Services) (env : InitEnv) (orgId : string) : IM unit :=
  match truthy (ELASTICDASH_INIT_USER_EMAIL env),
        truthy (ELASTICDASH_INIT_USER_PASSWORD env) with
  | Some userEmail, Some password =>
      let email := toLowerCase sv userEmail in
      existingUser <- call (UserFindUnique email) (fun h => userFindUnique sv h email) ;;
      userId <- match truthy existingUser with
                | Some id => iret id
                | None =>
                    let name := orElse (ELASTICDASH_INIT_USER_NAME env) "Provisioned User" in
                    call (CreateUserEmailPassword email password name)
                         (fun h => createUserEmailPassword sv h email password name)
                end ;;
      exec (OrganizationMembershipUpsert userId orgId)
           (fun h => organizationMembershipUpsert sv h userId orgId)
  | _, _ => iret tt
  end.

(** Lines 37-182: everything under [if (env.ELASTICDASH_INIT_ORG_ID)]. *)
Definition createOrganization (sv : Services) (env : InitEnv) : IM unit :=
  match truthy (ELASTICDASH_INIT_ORG_ID env) with
  | None => iret tt
  | Some orgIdVar =>
      cloudConfig <- (match truthy (ELASTICDASH_INIT_ORG_CLOUD_PLAN env) with
                      | Some plan =>
                          fun r => match cloudConfigParse sv plan with
                                   | inr parsed => (Returned (Some parsed), r)
                                   | inl e => (Thrown e, r)
                                   end
                      | None => iret None
                      end : IM (option string)) ;;
      let name := orElse (ELASTICDASH_INIT_ORG_NAME env) "Provisioned Org" in
      orgId <- call (OrganizationUpsert orgIdVar name cloudConfig)
                    (fun h => organizationUpsert sv h orgIdVar name cloudConfig) ;;
      _ <- warnPartial env ;;
      _ <- createProject sv env orgId ;;
      createUser sv env orgId
  end.

(** The module, run from top to bottom. *)
Definition initialize (sv : Services) (env : InitEnv) : IM unit :=
  _ <- warnIgnored env ;;
  createOrganization sv env.

(** Whether every [ApiKeyDelete] in a list of calls is followed at once by a
    [CreateAndAddApiKeysToDb] for the same public key. *)
Fixpoint deleteIsReplaced (l : list DbOp) : bool :=
  match l with
  | [] => true
  | ApiKeyDelete publicKey :: rest =>
      match rest with
      | CreateAndAddApiKeysToDb _ _ publicKey' :: _ =>
          String.eqb publicKey publicKey' && deleteIsReplaced rest
      | _ => false
      end
  | _ :: rest => deleteIsReplaced rest
  end.

(** The calls that delete or create a key or a user. *)
Definition creates (op : DbOp) : bool :=
  match op with
  | ApiKeyDelete _ | CreateAndAddApiKeysToDb _ _ _ | CreateUserEmailPassword _ _ _ => true
  | _ => false
  end.

(** A call that is not the upsert of the organization and that, when it
    names an organization, names [orgId]. *)
Definition attachedTo (orgId : string) (op : DbOp) : Prop :=
  match op with
  | OrganizationUpsert _ _ _ => False
  | ProjectUpsert _ _ o _ => o = orgId
  | OrganizationMembershipUpsert _ o => o = orgId
  | _ => True
  end.

(** A call whose arguments are the configured variables: the identifiers and
    the keys are those of [env], the email is the configured one in lower
    case, and the variables the script asks for before the call are set. *)
Definition configured (sv : Services) (env : InitEnv) (op : DbOp) : Prop :=
  match op with
  | OrganizationUpsert id name _ =>
      truthy (ELASTICDASH_INIT_ORG_ID env) = Some id
      /\ name = orElse (ELASTICDASH_INIT_ORG_NAME env) "Provisioned Org"
  | ProjectUpsert id name _ _ =>
      truthy (ELASTICDASH_INIT_PROJECT_ID env) = Some id
      /\ name = orElse (ELASTICDASH_INIT_PROJECT_NAME env) "Provisioned Project"
  | ApiKeyFindUnique publicKey | ApiKeyDelete publicKey =>
      truthy (ELASTICDASH_INIT_PROJECT_PUBLIC_KEY env) = Some publicKey
      /\ isSet (truthy (ELASTICDASH_INIT_PROJECT_SECRET_KEY env)) = true
      /\ isSet (truthy (ELASTICDASH_INIT_PROJECT_ID env)) = true
  | CreateAndAddApiKeysToDb entityId secretKey publicKey =>
      truthy (ELASTICDASH_INIT_PROJECT_ID env) = Some entityId
      /\ truthy (ELASTICDASH_INIT_PROJECT_SECRET_KEY env) = Some secretKey
      /\ truthy (ELASTICDASH_INIT_PROJECT_PUBLIC_KEY env) = Some publicKey
  | UserFindUnique email =>
      (exists e, truthy (ELASTICDASH_INIT_USER_EMAIL env) = Some e
                 /\ email = toLowerCase sv e)
      /\ isSet (truthy (ELASTICDASH_INIT_USER_PASSWORD env)) = true
  | CreateUserEmailPassword email password name =>
      (exists e, truthy (ELASTICDASH_INIT_USER_EMAIL env) = Some e
                 /\ email = toLowerCase sv e)
      /\ truthy (ELASTICDASH_INIT_USER_PASSWORD env) = Some password
      /\ name = orElse (ELASTICDASH_INIT_USER_NAME env) "Provisioned User"
  | OrganizationMembershipUpsert _ _ =>
      isSet (truthy (ELASTICDASH_INIT_USER_EMAIL env)) = true
      /\ isSet (truthy (ELASTICDASH_INIT_USER_PASSWORD env)) = true
  end.

Definition notDelete (op : DbOp) : Prop :=
  match op with ApiKeyDelete _ => False | _ => True end.

(** [Adds P c]: whatever the run so far, [c] only appends warnings and
    database calls, and each call it appends satisfies [P]. *)
Definition Adds (P : DbOp -> Prop) {A : Type} (c : IM A) : Prop :=
  forall r, exists l ws,
    snd (c r) = mkRun (warnings r ++ ws) (ops r ++ l) /\ Forall P l.

(** [Completes T c]: the same, [T] holding of the calls appended by a run of
    [c] that returns. *)
Definition Completes (T : list DbOp -> Prop) {A : Type} (c : IM A) : Prop :=
  forall r, exists l ws,
    snd (c r) = mkRun (warnings r ++ ws) (ops r ++ l)
    /\ forall a, fst (c r) = Returned a -> T l.

(** A list of calls that can be put in front of any other without changing
    whether every deletion is replaced. *)
Definition replacesItsDeletions (l : list DbOp) : Prop :=
  forall after, deleteIsReplaced (l ++ after) = deleteIsReplaced after.

End Initialize.

(** ** Runs of the initialization script used as examples *)

Module InitScenario.
Import JS Effects Initialize.

Definition lowerAscii (c : ascii) : ascii :=
  let n := nat_of_ascii c in
  if ((65 <=? n) && (n <=? 90))%nat then ascii_of_nat (n + 32) else c.

Fixpoint lower (s : string) : string :=
  match s with
  | EmptyString => EmptyString
  | String c rest => String (lowerAscii c) (lower rest)
  end.

(** A full configuration. *)
Definition full : InitEnv :=
  mkInitEnv (Some "org-1") (Some "Acme") None
            (Some "proj-1") None (Some 30%Z)
            (Some "pk-1") (Some "sk-1")
            (Some "Ada@Example.com") None (Some "secret").

(** Only a name and an email, without the organization identifier. *)
Definition noOrg : InitEnv :=
  mkInitEnv None (Some "Acme") None None None None None None
            (Some "ada@example.com") None None.

(** A database in which the key belongs to another project and the user is
    not there yet. *)
Definition movedKey : Services :=
  mkServices (fun plan => inr plan) true
    (fun _ id _ _ => inr id)
    (fun _ _ _ _ _ => None)
    (fun _ _ => inr (Some "proj-0"))
    (fun _ _ => None)
    (fun _ _ _ _ => None)
    (fun _ _ => inr None)
    (fun _ _ _ _ => inr "user-1")
    (fun _ _ _ => None)
    lower.

(** A database in which everything is in place. *)
Definition inPlace : Services :=
  mkServices (fun plan => inr plan) true
    (fun _ id _ _ => inr id)
    (fun _ _ _ _ _ => None)
    (fun _ _ => inr (Some "proj-1"))
    (fun _ _ => None)
    (fun _ _ _ _ => None)
    (fun _ _ => inr (Some "user-1"))
    (fun _ _ _ _ => inr "user-2")
    (fun _ _ _ => None)
    lower.

End InitScenario.

(** ** packages/shared/src/env.ts: the transforms of two variables *)

Module SharedEnv.
Import JS.

(** Strings are the bytes of their UTF-8 encoding.  A comma and a colon are
    one byte each, and that byte occurs in no other character. *)
Definition comma : ascii := ascii_of_nat 44.
Definition colon : ascii := ascii_of_nat 58.

(** [s.split(sep)] for a separator of one character: the pieces between the
    separators, one more than there are separators. *)
Fixpoint split (sep : ascii) (s : string) : list string :=
  match s with
  | EmptyString => [EmptyString]
  | String c rest =>
      if Ascii.eqb c sep then EmptyString :: split sep rest
      else match split sep rest with
           | piece :: pieces => String c piece :: pieces
           | [] => [String c EmptyString]
           end
  end.

(** [pieces.join(sep)] *)
Fixpoint join (sep : ascii) (pieces : list string) : string :=
  match pieces with
  | [] => EmptyString
  | [piece] => piece
  | piece :: rest => piece ++ String sep (join sep rest)
  end.

(** The white space and line terminators of ECMAScript that are one byte
    long: TAB, LF, VT, FF, CR, SP. *)
Definition isSpace1 (a : ascii) : bool :=
  let n := nat_of_ascii a in
  ((9 <=? n) && (n <=? 13) || (n =? 32))%nat.

(** Two bytes long: U+00A0. *)
Definition isSpace2 (a b : ascii) : bool :=
  ((nat_of_ascii a =? 194) && (nat_of_ascii b =? 160))%nat.

(** Three bytes long: U+1680, U+2000 to U+200A, U+2028, U+2029, U+202F,
    U+205F, U+3000, U+FEFF. *)
Definition isSpace3 (a b c : ascii) : bool :=
  let x := nat_of_ascii a in
  let y := nat_of_ascii b in
  let z := nat_of_ascii c in
  ((x =? 225) && (y =? 154) && (z =? 128)
   || (x =? 226) && (y =? 128)
      && ((128 <=? z) && (z <=? 138) || (z =? 168) || (z =? 169) || (z =? 175))
   || (x =? 226) && (y =? 129) && (z =? 159)
   || (x =? 227) && (y =? 128) && (z =? 128)
   || (x =? 239) && (y =? 187) && (z =? 191))%nat.

(** Whether a string begins with a white space character. *)
Definition startsWithSpace (s : string) : bool :=
  match s with
  | String a (String b (String c _)) => isSpace1 a || isSpace2 a b || isSpace3 a b c
  | String a (String b EmptyString) => isSpace1 a || isSpace2 a b
  | String a EmptyString => isSpace1 a
  | EmptyString => false
  end.

(** [s.trimStart()] *)
Fixpoint trimStart (s : string) : string :=
  match s with
  | EmptyString => EmptyString
  | String a rest1 =>
      if isSpace1 a then trimStart rest1
      else match rest1 with
           | EmptyString => s
           | String b rest2 =>
               if isSpace2 a b then trimStart rest2
               else match rest2 with
                    | EmptyString => s
                    | String c rest3 =>
                        if isSpace3 a b c then trimStart rest3 else s
                    end
           end
  end.

Fixpoint reverseOnto (s acc : string) : string :=
  match s with
  | EmptyString => acc
  | String c rest => reverseOnto rest (String c acc)
  end.

Definition reverse (s : string) : string := reverseOnto s EmptyString.

(** Whether a string, read from its end, begins with a white space
    character. *)
Definition startsWithSpaceReversed (s : string) : bool :=
  match s with
  | String c (String b (String a _)) => isSpace1 c || isSpace2 b c || isSpace3 a b c
  | String c (String b EmptyString) => isSpace1 c || isSpace2 b c
  | String c EmptyString => isSpace1 c
  | EmptyString => false
  end.

(** [trimStart] on a string read from its end. *)
Fixpoint trimStartReversed (s : string) : string :=
  match s with
  | EmptyString => EmptyString
  | String c rest1 =>
      if isSpace1 c then trimStartReversed rest1
      else match rest1 with
           | EmptyString => s
           | String b rest2 =>
               if isSpace2 b c then trimStartReversed rest2
               else match rest2 with
                    | EmptyString => s
                    | String a rest3 =>
                        if isSpace3 a b c then trimStartReversed rest3 else s
                    end
           end
  end.

(** [s.trimEnd()] *)
Definition trimEnd (s : string) : string := reverse (trimStartReversed (reverse s)).

Definition endsWithSpace (s : string) : bool := startsWithSpaceReversed (reverse s).

(** [s.trim()] *)
Definition trim (s : string) : string := trimEnd (trimStart s).

(** A string in a condition: the string when it is neither [undefined] nor
    empty. *)
Definition truthy (v : option string) : option string :=
  match v with
  | Some (String c s) => Some (String c s)
  | _ => None
  end.

(** [ELASTICDASH_TRACE_DELETE_SKIP_PROJECT_IDS]:
    [(s) => (s ? s.split(",").map((id) => id.trim()) : [])] *)
Definition ELASTICDASH_TRACE_DELETE_SKIP_PROJECT_IDS (s : option string) : list string :=
  match truthy s with
  | Some text => map trim (split comma text)
  | None => []
  end.

(** How many times a character occurs in a string, and whether it does. *)
Fixpoint countOf (c : ascii) (s : string) : nat :=
  match s with
  | EmptyString => 0
  | String x rest => (if Ascii.eqb x c then 1 else 0) + countOf c rest
  end.

Definition contains (c : ascii) (s : string) : bool := negb (countOf c s =? 0)%nat.

Section Sampled.

(** The sample rates, and [z.coerce.number().min(0).max(1).parse] on a
    string: the rate, or nothing when it throws. *)
Variable Rate : Type.
Variable parseRate : string -> option Rate.

(** A [Map<string, number>]: its entries in the order of insertion. *)
Definition RateMap := list (string * Rate).

(** [map.set(key, rate)]: the entry of a key that is there is replaced in
    place, a new key is added at the end. *)
Fixpoint mapSet (key : string) (rate : Rate) (m : RateMap) : RateMap :=
  match m with
  | [] => [(key, rate)]
  | (k, r) :: rest =>
      if String.eqb k key then (k, rate) :: rest else (k, r) :: mapSet key rate rest
  end.

(** [map.get(key)] *)
Fixpoint mapGet (key : string) (m : RateMap) : option Rate :=
  match m with
  | [] => None
  | (k, r) :: rest => if String.eqb k key then Some r else mapGet key rest
  end.

(** The body of the loop for one part: the project and its rate, or nothing
    when the body throws. *)
Definition parsePart (part : string) : option (string * Rate) :=
  match split colon part with
  | projectId :: sampleRateStr :: _ =>
      match projectId with
      | EmptyString => None
      | _ =>
          match parseRate sampleRateStr with
          | Some sampleRate => Some (projectId, sampleRate)
          | None => None
          end
      end
  | _ => None
  end.

(** The loop over the parts: the map, or nothing when a part throws. *)
Fixpoint addParts (parts : list string) (m : RateMap) : option RateMap :=
  match parts with
  | [] => Some m
  | part :: rest =>
      match parsePart part with
      | Some (projectId, sampleRate) => addParts rest (mapSet projectId sampleRate m)
      | None => None
      end
  end.

(** [ELASTICDASH_INGESTION_PROCESSING_SAMPLED_PROJECTS]: the [catch] clause
    returns an empty map. *)
Definition ELASTICDASH_INGESTION_PROCESSING_SAMPLED_PROJECTS (val : option string) : RateMap :=
  match truthy val with
  | None => []
  | Some text =>
      match addParts (split comma text) [] with
      | Some m => m
      | None => []
      end
  end.

(** The pairs of the parts that the body of the loop accepts. *)
Definition pairsOf (parts : list string) : list (string * Rate) :=
  flat_map (fun part => match parsePart part with
                        | Some entry => [entry]
                        | None => []
                        end) parts.

(** The rate of the last of the pairs that has the key. *)
Fixpoint lastRate (key : string) (pairs : list (string * Rate)) : option Rate :=
  match pairs with
  | [] => None
  | (k, r) :: rest =>
      match lastRate key rest with
      | Some later => Some later
      | None => if String.eqb k key then Some r else None
      end
  end.

End Sampled.

(** A reading of rates for the examples: the text itself, refused when it is
    the word [NaN]. *)
Definition exampleRate (text : string) : option string :=
  if String.eqb text "NaN" then None else Some text.

End SharedEnv.

(** * Properties *)

(** ** Strings *)

Section Includes.
Import JS.
Local Open Scope string_scope.

Lemma prefix_app (p s : string) : prefix p (p ++ s) = true.
Proof.
  induction p as [|c p IH]; simpl.
  - now destruct s.
  - destruct (ascii_dec c c) as [_|ne]; [exact IH | now elim ne].
Qed.

Lemma includes_tail (p : string) (c : ascii) (s : string) :
  includes p s = true -> includes p (String c s) = true.
Proof. intros H. simpl. rewrite H. apply orb_true_r. Qed.

Lemma includes_prefix (p s : string) : prefix p s = true -> includes p s = true.
Proof. intros H. destruct s; cbn [includes]; rewrite H; reflexivity. Qed.

Lemma includes_app (p pre post : string) :
  includes p (pre ++ p ++ post) = true.
Proof.
  induction pre as [|c pre IH]; simpl append.
  - apply includes_prefix, prefix_app.
  - now apply includes_tail.
Qed.

End Includes.

Section QueryText.
Import JS TraceConclusionService.
Local Open Scope string_scope.

Lemma prefix_skip (d a s : string) :
  prefix a s = true -> prefix (d ++ a) (d ++ s) = true.
Proof.
  intros H. induction d as [|c d IH]; simpl; [exact H|].
  destruct (ascii_dec c c) as [_|ne]; [exact IH | now elim ne].
Qed.

Lemma includes_skip (p d s : string) :
  includes p s = true -> includes p (d ++ s) = true.
Proof.
  intros H. induction d as [|c d IH]; simpl append; [exact H|].
  now apply includes_tail.
Qed.

(** Walks down a string made of literal characters and of opaque pieces
    until the pattern is a prefix of what is left. *)
Ltac walk_to_piece :=
  repeat first
    [ solve [ apply includes_prefix; cbn; reflexivity ]
    | solve [ apply includes_prefix; cbn; apply prefix_skip; reflexivity ]
    | apply includes_tail
    | apply includes_skip ].

Lemma buildQuery_interval (threshold : nat) :
  includes ("INTERVAL " ++ showNat threshold ++ " SECOND") (buildQuery threshold) = true.
Proof.
  unfold buildQuery, nl. generalize (showNat threshold). intros d.
  cbn [append]. walk_to_piece.
Qed.

Lemma buildQuery_limit (threshold : nat) :
  includes "LIMIT 1000" (buildQuery threshold) = true.
Proof.
  unfold buildQuery, nl. generalize (showNat threshold). intros d.
  cbn [append]. walk_to_piece.
Qed.

(** The text [findConcludedTraces] sends names the alias of [traces] after
    [FINAL]. *)
Lemma buildQuery_alias_after_final (threshold : nat) :
  includes "FROM traces FINAL t" (buildQuery threshold) = true.
Proof.
  unfold buildQuery, nl. generalize (showNat threshold). intros d.
  cbn [append]. walk_to_piece.
Qed.

End QueryText.


(** ** The service: equations of its three methods *)

Section ServiceEquations.
Import JS Effects Observations TraceConclusionService Cycle.

Lemma findConcludedTraces_rejected (env : Env) (w : World) (e : Error) :
  clickhouse env (calls w) (buildQuery INACTIVITY_THRESHOLD_SECONDS) = Rejected e ->
  findConcludedTraces env w
  = (Returned [],
     add_log (mkLog Err "Failed to query concluded traces:" (Some e))
             (add_call detectionCall w)).
Proof.
  intros H. unfold findConcludedTraces, try_catch, bind, queryClickhouse.
  rewrite H. reflexivity.
Qed.

Lemma findConcludedTraces_rows (env : Env) (w : World) (rows : list Row) :
  clickhouse env (calls w) (buildQuery INACTIVITY_THRESHOLD_SECONDS) = Rows rows ->
  findConcludedTraces env w
  = (Returned (map trace_id rows),
     if (0 <? length (map trace_id rows))%nat
     then add_log (mkLog Info ("Found " ++ showNat (length (map trace_id rows))
                               ++ " concluded traces ready for processing")%string None)
                  (add_call detectionCall w)
     else add_call detectionCall w).
Proof.
  intros H. unfold findConcludedTraces, try_catch, bind, queryClickhouse.
  rewrite H. destruct (0 <? length (map trace_id rows))%nat; reflexivity.
Qed.

Lemma findConcludedTraces_total (env : Env) (w : World) :
  exists ids w', findConcludedTraces env w = (Returned ids, w')
                 /\ calls w' = calls w ++ [detectionCall].
Proof.
  destruct (clickhouse env (calls w) (buildQuery INACTIVITY_THRESHOLD_SECONDS))
    as [rows|e] eqn:E.
  - rewrite (findConcludedTraces_rows _ _ _ E). do 2 eexists. split; [reflexivity|].
    destruct (0 <? length (map trace_id rows))%nat; reflexivity.
  - rewrite (findConcludedTraces_rejected _ _ _ E). do 2 eexists.
    split; reflexivity.
Qed.

(** [notifyTraceConcluded] returns whatever the API answers. *)
Lemma notifyTraceConcluded_returns (env : Env) (traceId : string) (w : World) :
  exists w', notifyTraceConcluded env traceId w = (Returned tt, w')
             /\ calls w' = calls w ++ [analyzeCall env traceId].
Proof.
  unfold notifyTraceConcluded, try_catch, bind, axios_post, analyzeCall.
  destruct (api env (calls w) _ _) as [code|e].
  - destruct (validateStatus code); eexists; split; reflexivity.
  - eexists; split; reflexivity.
Qed.

(** One turn of the loop. *)
Lemma notifyEach_cons (notify : string -> M unit) (traceId : string)
    (rest : list string) (s f : nat) (w : World) :
  notifyEach notify (traceId :: rest) s f w
  = match notify traceId w with
    | (Returned _, w1) =>
        notifyEach notify rest (S s) f
          (add_log (mkLog Debug ("Successfully notified trace concluded: " ++ traceId)%string
                          None) w1)
    | (Thrown e, w1) =>
        notifyEach notify rest s (S f)
          (add_log (mkLog Err ("Failed to notify trace concluded for " ++ traceId ++ ":")%string
                          (Some e)) w1)
    end.
Proof.
  cbn [notifyEach]. unfold bind at 1. unfold try_catch, bind.
  destruct (notify traceId w) as [[u|e] w1]; reflexivity.
Qed.

(** The loop never throws and gives every candidate one of the two counts. *)
Lemma notifyEach_total (notify : string -> M unit) (l : list string) :
  forall s f w, exists s' f' w',
    notifyEach notify l s f w = (Returned (s', f'), w')
    /\ s' + f' = s + f + length l /\ s <= s' /\ f <= f'.
Proof.
  induction l as [|x l IH]; intros s f w.
  - exists s, f, w. cbn. repeat split; lia.
  - rewrite notifyEach_cons. destruct (notify x w) as [[u|e] w1].
    + destruct (IH (S s) f (add_log (mkLog Debug
          ("Successfully notified trace concluded: " ++ x)%string None) w1))
        as [s' [f' [w' [E [H1 [H2 H3]]]]]].
      exists s', f', w'. rewrite E. cbn [length]. repeat split; lia.
    + destruct (IH s (S f) (add_log (mkLog Err
          ("Failed to notify trace concluded for " ++ x ++ ":")%string (Some e)) w1))
        as [s' [f' [w' [E [H1 [H2 H3]]]]]].
      exists s', f', w'. rewrite E. cbn [length]. repeat split; lia.
Qed.

(** The loop over [l1 ++ l2] is the loop over [l1] followed, in the world
    and with the counts it leaves, by the loop over [l2]. *)
Lemma notifyEach_app (notify : string -> M unit) (l1 l2 : list string) :
  forall s f w,
    notifyEach notify (l1 ++ l2) s f w
    = bind (notifyEach notify l1 s f)
           (fun c => notifyEach notify l2 (fst c) (snd c)) w.
Proof.
  induction l1 as [|x l1 IH]; intros s f w.
  - reflexivity.
  - cbn [app]. rewrite notifyEach_cons. unfold bind at 1.
    rewrite notifyEach_cons.
    destruct (notify x w) as [[u|e] w1]; rewrite IH; reflexivity.
Qed.

Lemma succeeded_le (answer : list Call -> string -> option Error) (l : list string) :
  forall history, succeeded answer history l <= length l.
Proof.
  induction l as [|x l IH]; intros history; cbn [succeeded length]; [lia|].
  specialize (IH (history ++ [NotifyCall x])).
  destruct (answer history x); lia.
Qed.

(** With an outside notifier the loop makes one call per candidate, in
    order, and counts the calls that did not fail. *)
Lemma notifyEach_external (answer : list Call -> string -> option Error)
    (l : list string) :
  forall s f w, exists w',
    notifyEach (externalNotifier answer) l s f w
    = (Returned (s + succeeded answer (calls w) l,
                 f + (length l - succeeded answer (calls w) l)), w')
    /\ calls w' = calls w ++ map NotifyCall l.
Proof.
  induction l as [|x l IH]; intros s f w.
  - exists w. cbn. rewrite !Nat.add_0_r, app_nil_r. split; reflexivity.
  - rewrite notifyEach_cons. unfold externalNotifier at 1.
    cbn [succeeded length map].
    pose proof (succeeded_le answer l (calls w ++ [NotifyCall x])) as Hle.
    destruct (answer (calls w) x) as [e|].
    + destruct (IH s (S f) (add_log (mkLog Err
          ("Failed to notify trace concluded for " ++ x ++ ":")%string (Some e))
          (add_call (NotifyCall x) w))) as [w' [E Hc]].
      exists w'. rewrite E. cbn [calls add_log add_call] in *. split.
      * do 2 f_equal. f_equal; lia.
      * rewrite Hc, <- app_assoc. reflexivity.
    + destruct (IH (S s) f (add_log (mkLog Debug
          ("Successfully notified trace concluded: " ++ x)%string None)
          (add_call (NotifyCall x) w))) as [w' [E Hc]].
      exists w'. rewrite E. cbn [calls add_log add_call] in *. split.
      * do 2 f_equal. f_equal; lia.
      * rewrite Hc, <- app_assoc. reflexivity.
Qed.

(** With [notifyTraceConcluded] the loop makes one POST per candidate, in
    order, and counts every candidate as a success. *)
Lemma notifyEach_notifyTraceConcluded (env : Env) (l : list string) :
  forall s f w, exists w',
    notifyEach (notifyTraceConcluded env) l s f w = (Returned (s + length l, f), w')
    /\ calls w' = calls w ++ map (analyzeCall env) l.
Proof.
  induction l as [|x l IH]; intros s f w.
  - exists w. cbn. rewrite Nat.add_0_r, app_nil_r. split; reflexivity.
  - rewrite notifyEach_cons.
    destruct (notifyTraceConcluded_returns env x w) as [w1 [E1 Hc1]].
    rewrite E1.
    destruct (IH (S s) f (add_log (mkLog Debug
        ("Successfully notified trace concluded: " ++ x)%string None) w1))
      as [w' [E Hc]].
    exists w'. rewrite E. cbn [calls add_log length map] in *. split.
    + do 2 f_equal. f_equal; lia.
    + rewrite Hc, Hc1, <- app_assoc. reflexivity.
Qed.

(** [processConcludedTraces] on a list that is not empty. *)
Lemma processConcludedTracesWith_cons (notify : string -> M unit)
    (traceId : string) (rest : list string) (w : World) :
  processConcludedTracesWith notify (traceId :: rest) w
  = match notifyEach notify (traceId :: rest) 0 0
            (add_log (mkLog Info ("Processing " ++ showNat (S (length rest))
                                  ++ " concluded traces")%string None) w) with
    | (Returned counts, w1) =>
        (Returned (fst counts), add_log (summaryEntry (fst counts) (snd counts)) w1)
    | (Thrown e, w1) => (Thrown e, w1)
    end.
Proof.
  unfold processConcludedTracesWith. cbn [length Nat.eqb].
  unfold bind at 1. unfold logger_info at 1. unfold bind at 1.
  destruct (notifyEach notify (traceId :: rest) 0 0 _) as [[counts|e] w1]; reflexivity.
Qed.

Lemma processConcludedTracesWith_nil (notify : string -> M unit) (w : World) :
  processConcludedTracesWith notify [] w = (Returned 0, w).
Proof. reflexivity. Qed.

(** With [notifyTraceConcluded] a pass posts every candidate, in order, and
    returns the length of the list. *)
Lemma processConcludedTraces_posts (env : Env) (l : list string) (w : World) :
  exists w', processConcludedTraces env l w = (Returned (length l), w')
             /\ calls w' = calls w ++ map (analyzeCall env) l.
Proof.
  destruct l as [|x l].
  - exists w. cbn. rewrite app_nil_r. split; reflexivity.
  - unfold processConcludedTraces. rewrite processConcludedTracesWith_cons.
    destruct (notifyEach_notifyTraceConcluded env (x :: l) 0 0
                (add_log (mkLog Info ("Processing " ++ showNat (S (length l))
                                      ++ " concluded traces")%string None) w))
      as [w' [E Hc]].
    rewrite E. eexists. split; [reflexivity | exact Hc].
Qed.

End ServiceEquations.

(** ** The detection query *)

Section Detection.
Import JS Effects TraceConclusionService Cycle.

(** C1, on a store that holds a concluded trace.  The text built by
    [findConcludedTraces] holds [FROM traces FINAL t], with the alias after
    [FINAL].  A ClickHouse that rejects such a text, as ClickHouse does,
    rejects the detection query whatever its tables hold: [findConcludedTraces]
    logs the error and returns the empty list, so that no trace is selected,
    the concluded ones included. *)
Theorem detection_selects_nothing (env : Env) (w : World) :
  (forall history query,
      includes "FROM traces FINAL t" query = true ->
      exists e, clickhouse env history query = Rejected e) ->
  includes "FROM traces FINAL t" (buildQuery INACTIVITY_THRESHOLD_SECONDS) = true
  /\ exists e,
       findConcludedTraces env w
       = (Returned [],
          add_log (mkLog Err "Failed to query concluded traces:" (Some e))
                  (add_call detectionCall w)).
Proof.
  intros H. split; [apply buildQuery_alias_after_final|].
  destruct (H (calls w) (buildQuery INACTIVITY_THRESHOLD_SECONDS)
              (buildQuery_alias_after_final _)) as [e E].
  exists e. apply findConcludedTraces_rejected, E.
Qed.

Lemma detection_selects_nothing_witness :
  exists e,
    findConcludedTraces Scenario.concludedStore emptyWorld
    = (Returned [],
       add_log (mkLog Err "Failed to query concluded traces:" (Some e))
               (add_call detectionCall emptyWorld)).
Proof.
  apply (detection_selects_nothing Scenario.concludedStore emptyWorld).
  intros history query H. cbn. rewrite H. eexists. reflexivity.
Defined.

End Detection.

(** ** The notifier *)

Section Notifier.
Import JS Effects Observations TraceConclusionService Cycle.

Lemma accepted_le (env : Env) (l : list string) :
  forall history, Reading.accepted env history l <= length l.
Proof.
  induction l as [|x l IH]; intros history; cbn [Reading.accepted length]; [lia|].
  specialize (IH (history ++ [analyzeCall env x])).
  destruct (httpFails env history x); lia.
Qed.

(** C2, with [notifyTraceConcluded].  For a candidate list of length k the
    pass makes exactly k POSTs, one per candidate and in the order of the
    list, whatever the API answers, so that a rejected POST stops nothing.
    But the value returned is k itself, not the number of POSTs the API
    accepted: in the scenario of the test suite, where the second of three
    POSTs is rejected, two POSTs are accepted and 3 is returned. *)
Theorem processConcludedTraces_counts_every_call
    (env : Env) (traceIds : list string) (w : World) :
  calls (snd (processConcludedTraces env traceIds w))
  = calls w ++ map (analyzeCall env) traceIds
  /\ fst (processConcludedTraces env traceIds w) = Returned (length traceIds)
  /\ Reading.accepted env (calls w) traceIds <= length traceIds
  /\ Reading.accepted Scenario.secondPostFails (calls emptyWorld)
       ["trace-1"; "trace-2"; "trace-3"] = 2
  /\ fst (processConcludedTraces Scenario.secondPostFails
            ["trace-1"; "trace-2"; "trace-3"] emptyWorld) = Returned 3.
Proof.
  destruct (processConcludedTraces_posts env traceIds w) as [w' [E Hc]].
  rewrite E. split; [exact Hc|]. split; [reflexivity|].
  split; [apply accepted_le|]. split; vm_compute; reflexivity.
Qed.

(** The scenario of the test suite: three candidates, the second call
    fails.  Three calls are made, 2 is returned and one error names the
    second candidate. *)
Example second_call_fails :
  processConcludedTracesWith (externalNotifier Scenario.secondCallFails)
    ["trace-1"; "trace-2"; "trace-3"] emptyWorld
  = (Returned 2,
     mkWorld
       [mkLog Info "Processing 3 concluded traces" None;
        mkLog Debug "Successfully notified trace concluded: trace-1" None;
        mkLog Err "Failed to notify trace concluded for trace-2:"
              (Some (mkError "Error" "API error"));
        mkLog Debug "Successfully notified trace concluded: trace-3" None;
        mkLog Info "Processed concluded traces: 2 succeeded, 1 failed" None]
       [NotifyCall "trace-1"; NotifyCall "trace-2"; NotifyCall "trace-3"]).
Proof. vm_compute. reflexivity. Qed.

(** C9.  On the empty list [processConcludedTraces] returns 0 and leaves
    the world as it found it: no call is made and no line is logged,
    neither the line that opens a pass nor the summary. *)
Theorem processConcludedTraces_empty
    (notify : string -> M unit) (env : Env) (w : World) :
  processConcludedTracesWith notify [] w = (Returned 0, w)
  /\ processConcludedTraces env [] w = (Returned 0, w).
Proof. split; reflexivity. Qed.

(** C10.  The POSTs of [processConcludedTraces] are those of the input list,
    in its order, an identifier that occurs twice being posted twice.  The
    calls are made one after the other: the pass over [l1 ++ l2] is the pass
    over [l1], completed, followed by the pass over [l2].  When the list is
    not empty the last line logged is the info line
    "Processed concluded traces: S succeeded, F failed", where S is the value
    returned and S and F add up to the length of the list; this holds
    whatever the notifier does.  With [notifyTraceConcluded] S is the length
    of the list and F is 0. *)
Theorem processConcludedTraces_in_order
    (notify : string -> M unit) (env : Env) (traceIds : list string) (w : World) :
  calls (snd (processConcludedTraces env traceIds w))
  = calls w ++ map (analyzeCall env) traceIds
  /\ (forall l1 l2 s f w0,
        notifyEach notify (l1 ++ l2) s f w0
        = bind (notifyEach notify l1 s f)
               (fun counts => notifyEach notify l2 (fst counts) (snd counts)) w0)
  /\ (traceIds <> [] ->
      exists successCount failureCount w',
        processConcludedTracesWith notify traceIds w
        = (Returned successCount,
           add_log (mkLog Info ("Processed concluded traces: " ++ showNat successCount
                                ++ " succeeded, " ++ showNat failureCount
                                ++ " failed")%string None) w')
        /\ successCount + failureCount = length traceIds)
  /\ (traceIds <> [] ->
      exists w',
        processConcludedTraces env traceIds w
        = (Returned (length traceIds),
           add_log (mkLog Info ("Processed concluded traces: "
                                ++ showNat (length traceIds)
                                ++ " succeeded, 0 failed")%string None) w')).
Proof.
  split; [|split; [|split]].
  - destruct (processConcludedTraces_posts env traceIds w) as [w' [E Hc]].
    rewrite E. exact Hc.
  - intros l1 l2 s f w0. apply notifyEach_app.
  - destruct traceIds as [|traceId rest]; [intros H; now elim H | intros _].
    rewrite processConcludedTracesWith_cons.
    destruct (notifyEach_total notify (traceId :: rest) 0 0
                (add_log (mkLog Info ("Processing " ++ showNat (S (length rest))
                                      ++ " concluded traces")%string None) w))
      as [s' [f' [w' [E [H _]]]]].
    rewrite E. exists s', f', w'. split; [reflexivity | exact H].
  - destruct traceIds as [|traceId rest]; [intros H; now elim H | intros _].
    unfold processConcludedTraces. rewrite processConcludedTracesWith_cons.
    destruct (notifyEach_notifyTraceConcluded env (traceId :: rest) 0 0
                (add_log (mkLog Info ("Processing " ++ showNat (S (length rest))
                                      ++ " concluded traces")%string None) w))
      as [w' [E _]].
    rewrite E. exists w'. reflexivity.
Qed.

Lemma processConcludedTraces_in_order_witness :
  (exists successCount failureCount w',
     processConcludedTracesWith (externalNotifier Scenario.secondCallFails)
       ["trace-1"; "trace-2"] emptyWorld
     = (Returned successCount,
        add_log (mkLog Info ("Processed concluded traces: " ++ showNat successCount
                             ++ " succeeded, " ++ showNat failureCount
                             ++ " failed")%string None) w')
     /\ successCount + failureCount = 2)
  /\ exists w',
       processConcludedTraces Scenario.storeEmpty ["trace-1"; "trace-2"] emptyWorld
       = (Returned 2,
          add_log (mkLog Info "Processed concluded traces: 2 succeeded, 0 failed" None) w').
Proof.
  destruct (processConcludedTraces_in_order (externalNotifier Scenario.secondCallFails)
              Scenario.storeEmpty ["trace-1"; "trace-2"] emptyWorld) as [_ [_ [H1 H2]]].
  split; [apply H1 | apply H2]; discriminate.
Defined.

(** An identifier that occurs twice is posted twice. *)
Example duplicate_is_posted_twice :
  processConcludedTraces Scenario.storeEmpty ["trace-1"; "trace-1"] emptyWorld
  = (Returned 2,
     mkWorld
       [mkLog Info "Processing 2 concluded traces" None;
        mkLog Debug "Successfully notified trace concluded: trace-1" None;
        mkLog Debug "Successfully notified trace concluded: trace-1" None;
        mkLog Info "Processed concluded traces: 2 succeeded, 0 failed" None]
       [analyzeCall Scenario.storeEmpty "trace-1";
        analyzeCall Scenario.storeEmpty "trace-1"]).
Proof. vm_compute. reflexivity. Qed.

End Notifier.

(** ** The detector and the cycle *)

Section Cycles.
Import JS Effects Observations TraceConclusionService TraceConclusionRunner Cycle.

(** C3.  When the ClickHouse query rejects, with whatever error,
    [findConcludedTraces] logs the error and returns the empty list, and
    [checkAndProcessConcludedTraces] returns 0 in a world where the query
    is the only call made: no notification is sent in that cycle. *)
Theorem detection_failure_gives_empty_cycle (env : Env) (w : World) (e : Error) :
  clickhouse env (calls w) (buildQuery INACTIVITY_THRESHOLD_SECONDS) = Rejected e ->
  let w' := add_log (mkLog Err "Failed to query concluded traces:" (Some e))
                    (add_call detectionCall w) in
  findConcludedTraces env w = (Returned [], w')
  /\ checkAndProcessConcludedTraces env w = (Returned 0, w')
  /\ calls w' = calls w ++ [detectionCall].
Proof.
  intros H w'. pose proof (findConcludedTraces_rejected env w e H) as E.
  split; [exact E|]. split; [|reflexivity].
  unfold checkAndProcessConcludedTraces, checkAndProcessWith, try_catch, bind.
  rewrite E. reflexivity.
Qed.

Lemma detection_failure_gives_empty_cycle_witness :
  findConcludedTraces Scenario.storeDown emptyWorld
  = (Returned [],
     mkWorld [mkLog Err "Failed to query concluded traces:"
                    (Some (mkError "Error" "ClickHouse error"))]
             [detectionCall])
  /\ checkAndProcessConcludedTraces Scenario.storeDown emptyWorld
     = (Returned 0,
        mkWorld [mkLog Err "Failed to query concluded traces:"
                       (Some (mkError "Error" "ClickHouse error"))]
                [detectionCall]).
Proof.
  destruct (detection_failure_gives_empty_cycle Scenario.storeDown emptyWorld
              (mkError "Error" "ClickHouse error") eq_refl) as [H1 [H2 _]].
  split; [exact H1 | exact H2].
Defined.

(** C5.  [checkAndProcessConcludedTraces] never throws.  Run against any
    detector and any notifier, the cycle returns; when the detector throws,
    or when the notifier throws, the error is logged at the boundary and the
    cycle returns 0. *)
Theorem checkAndProcess_never_throws
    (find : M (list string)) (process : list string -> M nat)
    (env : Env) (w : World) :
  (exists n w', checkAndProcessWith find process w = (Returned n, w'))
  /\ (exists n w', checkAndProcessConcludedTraces env w = (Returned n, w'))
  /\ (forall e w1,
        find w = (Thrown e, w1) ->
        checkAndProcessWith find process w
        = (Returned 0, add_log (mkLog Err "Error in trace conclusion check:" (Some e)) w1))
  /\ (forall ids e w1 w2,
        find w = (Returned ids, w1) ->
        process ids w1 = (Thrown e, w2) ->
        checkAndProcessWith find process w
        = (Returned 0, add_log (mkLog Err "Error in trace conclusion check:" (Some e)) w2)).
Proof.
  assert (G : forall (fnd : M (list string)) (prc : list string -> M nat),
             exists n w', checkAndProcessWith fnd prc w = (Returned n, w')).
  { intros fnd prc. unfold checkAndProcessWith, try_catch, bind.
    destruct (fnd w) as [[ids|e] w1].
    - destruct (prc ids w1) as [[n|e] w2]; do 2 eexists; reflexivity.
    - do 2 eexists; reflexivity. }
  split; [apply G|]. split; [apply G|]. split.
  - intros e w1 E. unfold checkAndProcessWith, try_catch, bind. rewrite E. reflexivity.
  - intros ids e w1 w2 E1 E2. unfold checkAndProcessWith, try_catch, bind.
    rewrite E1, E2. reflexivity.
Qed.

Lemma checkAndProcess_never_throws_witness :
  checkAndProcessWith Scenario.brokenDetector Scenario.brokenNotifier emptyWorld
  = (Returned 0,
     mkWorld [mkLog Err "Error in trace conclusion check:"
                    (Some (mkError "TypeError" "results.map is not a function"))] [])
  /\ checkAndProcessWith (findConcludedTraces Scenario.storeEmpty)
                         Scenario.brokenNotifier emptyWorld
     = (Returned 0,
        mkWorld [mkLog Err "Error in trace conclusion check:"
                       (Some (mkError "RangeError" "out of memory"))] [detectionCall]).
Proof.
  split.
  - destruct (checkAndProcess_never_throws Scenario.brokenDetector
                Scenario.brokenNotifier Scenario.storeEmpty emptyWorld)
      as [_ [_ [H _]]].
    exact (H _ _ eq_refl).
  - destruct (checkAndProcess_never_throws (findConcludedTraces Scenario.storeEmpty)
                Scenario.brokenNotifier Scenario.storeEmpty emptyWorld)
      as [_ [_ [_ H]]].
    exact (H [] _ (mkWorld [] [detectionCall]) _ eq_refl eq_refl).
Defined.

(** C7.  The query text [findConcludedTraces] sends holds the threshold and
    the cap as written: whatever the threshold, the text built for it
    contains [INTERVAL <threshold> SECOND] and [LIMIT 1000]; and the text
    sent to ClickHouse, built for the threshold 60, contains
    [INTERVAL 60 SECOND] and [LIMIT 1000]. *)
Theorem findConcludedTraces_query_text (env : Env) (w : World) (threshold : nat) :
  includes ("INTERVAL " ++ showNat threshold ++ " SECOND")%string (buildQuery threshold) = true
  /\ includes "LIMIT 1000" (buildQuery threshold) = true
  /\ exists query,
       calls (snd (findConcludedTraces env w)) = calls w ++ [QueryCall query [] queryTags]
       /\ includes "INTERVAL 60 SECOND" query = true
       /\ includes "LIMIT 1000" query = true.
Proof.
  split; [apply buildQuery_interval|]. split; [apply buildQuery_limit|].
  exists (buildQuery INACTIVITY_THRESHOLD_SECONDS).
  destruct (findConcludedTraces_total env w) as [ids [w' [E Hc]]].
  rewrite E. split; [exact Hc|].
  split; [exact (buildQuery_interval 60) | apply buildQuery_limit].
Qed.

(** What detection leaves behind when it returns the empty list: the query
    as the only call and, when the query was rejected, the error line. *)
Lemma findConcludedTraces_empty_world (env : Env) (w w1 : World) :
  findConcludedTraces env w = (Returned [], w1) ->
  w1 = add_call detectionCall w
  \/ exists e, w1 = add_log (mkLog Err "Failed to query concluded traces:" (Some e))
                            (add_call detectionCall w).
Proof.
  intros H.
  destruct (clickhouse env (calls w) (buildQuery INACTIVITY_THRESHOLD_SECONDS))
    as [rows|e] eqn:E.
  - rewrite (findConcludedTraces_rows env w rows E) in H.
    destruct rows as [|row rows]; [|discriminate H].
    cbn in H. inversion H. left. reflexivity.
  - rewrite (findConcludedTraces_rejected env w e E) in H.
    inversion H. right. exists e. reflexivity.
Qed.

(** C8, as the code has it.  When detection returns the empty list, be it
    that the query returned no row or that it was rejected,
    [checkAndProcessConcludedTraces] hands the empty list to
    [processConcludedTraces], which returns 0 at its guard: the cycle returns
    0 in the world that detection left, where the query is the only call made
    and the only line that may have been logged is the error line of a
    rejected query.  The line "no traces to process" is logged by
    [TraceConclusionRunner.execute] once the service has returned. *)
Theorem empty_detection_cycle (env : Env) (w w1 : World) :
  findConcludedTraces env w = (Returned [], w1) ->
  (forall process,
      checkAndProcessWith (findConcludedTraces env) process w
      = try_catch (process [])
          (fun error =>
             bind (logger_error "Error in trace conclusion check:" (Some error))
                  (fun _ => ret 0)) w1)
  /\ checkAndProcessConcludedTraces env w = (Returned 0, w1)
  /\ calls w1 = calls w ++ [detectionCall]
  /\ (logs w1 = logs w
      \/ exists e,
           logs w1 = logs w ++ [mkLog Err "Failed to query concluded traces:" (Some e)])
  /\ (forall w0,
        w = add_log cycleStarting w0 ->
        execute env w0
        = (Returned tt,
           add_log (mkLog Debug "Trace conclusion check: no traces to process" None) w1)).
Proof.
  intros E.
  assert (C : checkAndProcessConcludedTraces env w = (Returned 0, w1)).
  { unfold checkAndProcessConcludedTraces, checkAndProcessWith, try_catch, bind.
    rewrite E. reflexivity. }
  split; [|split; [exact C|split; [|split]]].
  - intros process. unfold checkAndProcessWith, try_catch, bind. rewrite E. reflexivity.
  - destruct (findConcludedTraces_empty_world env w w1 E) as [->|[e ->]]; reflexivity.
  - destruct (findConcludedTraces_empty_world env w w1 E) as [->|[e ->]];
      [left | right; exists e]; reflexivity.
  - intros w0 ->. unfold execute, executeWith, bind, logger_debug.
    fold cycleStarting. rewrite C. reflexivity.
Qed.

Lemma empty_detection_cycle_witness :
  (checkAndProcessConcludedTraces Scenario.storeEmpty emptyWorld
   = (Returned 0, mkWorld [] [detectionCall])
   /\ execute Scenario.storeEmpty emptyWorld
      = (Returned tt, mkWorld [cycleStarting; nothingToProcess] [detectionCall]))
  /\ checkAndProcessConcludedTraces Scenario.storeDown emptyWorld
     = (Returned 0,
        mkWorld [mkLog Err "Failed to query concluded traces:"
                       (Some (mkError "Error" "ClickHouse error"))]
                [detectionCall]).
Proof.
  split; [split|].
  - destruct (empty_detection_cycle Scenario.storeEmpty emptyWorld
                (mkWorld [] [detectionCall]) eq_refl) as [_ [H _]].
    exact H.
  - destruct (empty_detection_cycle Scenario.storeEmpty (add_log cycleStarting emptyWorld)
                (mkWorld [cycleStarting] [detectionCall]) eq_refl) as [_ [_ [_ [_ H]]]].
    exact (H emptyWorld eq_refl).
  - destruct (empty_detection_cycle Scenario.storeDown emptyWorld
                (mkWorld [mkLog Err "Failed to query concluded traces:"
                                (Some (mkError "Error" "ClickHouse error"))]
                         [detectionCall]) eq_refl) as [_ [H _]].
    exact H.
Defined.

(** C8, as stated, fails on the cycle whose query returns no row.
    [checkAndProcessConcludedTraces] logs nothing, so no line of its own says
    that there is nothing to process; and it does call the notifier: run
    with a notifier that leaves a mark and returns 7, the cycle carries the
    mark and returns 7. *)
Lemma empty_detection_still_calls_notifier :
  logs (snd (checkAndProcessConcludedTraces Scenario.storeEmpty emptyWorld)) = []
  /\ existsb (fun entry => includes "no traces to process" (text entry))
             (logs (snd (checkAndProcessConcludedTraces Scenario.storeEmpty emptyWorld)))
     = false
  /\ checkAndProcessWith (findConcludedTraces Scenario.storeEmpty)
                         Scenario.markingNotifier emptyWorld
     = (Returned 7,
        mkWorld [mkLog Debug "processConcludedTraces called" None] [detectionCall]).
Proof. repeat split; vm_compute; reflexivity. Qed.

(** The end-to-end scenario of the test suite: two candidates, both
    notified, 2 returned. *)
Example two_traces_cycle :
  checkAndProcessConcludedTraces Scenario.twoTraces emptyWorld
  = (Returned 2,
     mkWorld
       [mkLog Info "Found 2 concluded traces ready for processing" None;
        mkLog Info "Processing 2 concluded traces" None;
        mkLog Debug "Successfully notified trace concluded: trace-1" None;
        mkLog Debug "Successfully notified trace concluded: trace-2" None;
        mkLog Info "Processed concluded traces: 2 succeeded, 0 failed" None]
       [detectionCall;
        analyzeCall Scenario.twoTraces "trace-1";
        analyzeCall Scenario.twoTraces "trace-2"]).
Proof. vm_compute. reflexivity. Qed.

End Cycles.

(** ** What a failed POST does to the counts *)

Section FailedPost.
Import JS Effects Observations TraceConclusionService Cycle.

(** Whatever the API answers, a pass through [notifyTraceConcluded] counts
    every candidate as a success. *)
Lemma processConcludedTraces_counts_all (env : Env) (l : list string) (w : World) :
  fst (processConcludedTraces env l w) = Returned (length l).
Proof.
  destruct (processConcludedTraces_posts env l w) as [w' [E _]].
  rewrite E. reflexivity.
Qed.

(** C4, at the scenario of the test suite where the second POST is
    rejected.  Each candidate is posted to [<base>/api/features/analyze] with
    the body [{ trace_id }], but the rejected POST is not counted as a
    failure: [notifyTraceConcluded] catches the error, so the pass returns 3,
    reports "3 succeeded, 0 failed", and the only error logged does not name
    the candidate. *)
Theorem failed_post_is_counted_as_success :
  let env := Scenario.secondPostFails in
  httpFails env [analyzeCall env "trace-1"] "trace-2" = true
  /\ processConcludedTraces env ["trace-1"; "trace-2"; "trace-3"] emptyWorld
     = (Returned 3,
        mkWorld
          [mkLog Info "Processing 3 concluded traces" None;
           mkLog Debug "Successfully notified trace concluded: trace-1" None;
           mkLog Err "Failed to notify features analyze: Error: API error" None;
           mkLog Debug "Successfully notified trace concluded: trace-2" None;
           mkLog Debug "Successfully notified trace concluded: trace-3" None;
           mkLog Info "Processed concluded traces: 3 succeeded, 0 failed" None]
          [PostCall "http://localhost:3000/api/features/analyze" [("trace_id", "trace-1")];
           PostCall "http://localhost:3000/api/features/analyze" [("trace_id", "trace-2")];
           PostCall "http://localhost:3000/api/features/analyze" [("trace_id", "trace-3")]]).
Proof. split; vm_compute; reflexivity. Qed.

(** The same with a status outside 2xx. *)
Example status_500_is_counted_as_success :
  httpFails Scenario.apiDown [] "trace-1" = true
  /\ processConcludedTraces Scenario.apiDown ["trace-1"] emptyWorld
     = (Returned 1,
        mkWorld
          [mkLog Info "Processing 1 concluded traces" None;
           mkLog Err ("Failed to notify features analyze: "
                      ++ "AxiosError: Request failed with status code 500")%string None;
           mkLog Debug "Successfully notified trace concluded: trace-1" None;
           mkLog Info "Processed concluded traces: 1 succeeded, 0 failed" None]
          [analyzeCall Scenario.apiDown "trace-1"]).
Proof. split; vm_compute; reflexivity. Qed.

End FailedPost.

(** ** The scheduler *)

Section Scheduler.
Import PeriodicRunner.
Local Open Scope nat_scope.

Lemma step_keeps_one (r : Runner) (e : Event) :
  inFlight r <= 1 -> inFlight (step r e) <= 1.
Proof.
  intros H. destruct e; cbn [step]; unfold fire; cbn [active inFlight].
  - destruct (active r); [exact H|]. destruct (inFlight r =? 0) eqn:E; cbn; [|exact H].
    apply Nat.eqb_eq in E. lia.
  - exact H.
  - destruct (active r); [|exact H]. destruct (inFlight r =? 0) eqn:E; cbn; [|exact H].
    apply Nat.eqb_eq in E. lia.
  - lia.
Qed.

Lemma fold_keeps_one (events : list Event) :
  forall r, inFlight r <= 1 -> inFlight (fold_left step events r) <= 1.
Proof.
  induction events as [|e events IH]; intros r H; cbn [fold_left]; [exact H|].
  apply IH, step_keeps_one, H.
Qed.

(** An event begins an invocation only when none is in flight. *)
Lemma step_launches_when_idle (r : Runner) (e : Event) :
  launched (step r e) = launched r
  \/ (inFlight r = 0 /\ launched (step r e) = S (launched r) /\ inFlight (step r e) = 1).
Proof.
  destruct e; cbn [step]; unfold fire; cbn [active inFlight launched]; auto.
  - destruct (active r); auto. destruct (inFlight r =? 0) eqn:E; cbn; auto.
    apply Nat.eqb_eq in E. right. rewrite E. auto.
  - destruct (active r); auto. destruct (inFlight r =? 0) eqn:E; cbn; auto.
    apply Nat.eqb_eq in E. right. rewrite E. auto.
Qed.

(** C6.  Whatever the order in which ticks and completions arrive, so also
    when the unit of work outlasts the interval: at most one invocation is
    in flight; an invocation begins only when none is in flight; a tick
    that finds one in flight is counted as skipped and begins nothing, and
    the completion that follows begins nothing either, so the tick was not
    queued. *)
Theorem runner_never_overlaps (events : list Event) :
  let r := run events in
  inFlight r <= 1
  /\ (forall e,
        launched (step r e) = launched r
        \/ (inFlight r = 0 /\ launched (step r e) = S (launched r)
            /\ inFlight (step r e) = 1))
  /\ (inFlight r = 1 -> active r = true ->
        step r Tick = mkRunner true 1 (launched r) (S (skipped r))
        /\ step (step r Tick) Done = mkRunner true 0 (launched r) (S (skipped r)))
  /\ launched (step r Done) = launched r.
Proof.
  intros r. split; [|split; [|split]].
  - apply fold_keeps_one. cbn. lia.
  - intros e. apply step_launches_when_idle.
  - intros H1 Ha. cbn [step]. unfold fire. rewrite Ha, H1. cbn. split; reflexivity.
  - reflexivity.
Qed.

Lemma runner_never_overlaps_witness :
  step (run [Start]) Tick = mkRunner true 1 1 1
  /\ step (step (run [Start]) Tick) Done = mkRunner true 0 1 1.
Proof.
  destruct (runner_never_overlaps [Start]) as [_ [_ [H _]]].
  exact (H eq_refl eq_refl).
Defined.

(** A unit of work that outlasts two intervals: the two ticks that fall
    inside it are skipped, and the next invocation begins at the first tick
    after it completes. *)
Example slow_unit_of_work :
  run [Start; Tick; Tick] = mkRunner true 1 1 2
  /\ run [Start; Tick; Tick; Done] = mkRunner true 0 1 2
  /\ run [Start; Tick; Tick; Done; Tick] = mkRunner true 1 2 2.
Proof. repeat split. Qed.

End Scheduler.

(** * Further properties *)

(** ** The notification helper and the log of a pass *)

Section PassLog.
Import JS Effects Observations TraceConclusionService TraceConclusionRunner Cycle Reading.

Lemma notifyTraceConcluded_eq (env : Env) (traceId : string) (w : World) :
  notifyTraceConcluded env traceId w
  = (Returned tt,
     mkWorld
       (logs w ++ match postError env (calls w) traceId with
                  | None => []
                  | Some e => [swallowedEntry e]
                  end)
       (calls w ++ [analyzeCall env traceId])).
Proof.
  unfold notifyTraceConcluded, try_catch, bind, axios_post, postError, analyzeCall.
  destruct (api env (calls w) _ _) as [code|e].
  - destruct (validateStatus code); cbn; [rewrite app_nil_r|]; reflexivity.
  - reflexivity.
Qed.

Lemma notifyEach_external_log (answer : list Call -> string -> option Error)
    (l : list string) :
  forall s f w,
    snd (notifyEach (externalNotifier answer) l s f w)
    = mkWorld (logs w ++ externalLines answer (calls w) l)
              (calls w ++ map NotifyCall l).
Proof.
  induction l as [|x l IH]; intros s f w.
  - cbn. rewrite !app_nil_r. destruct w; reflexivity.
  - rewrite notifyEach_cons. unfold externalNotifier at 1.
    cbn [externalLines map].
    destruct (answer (calls w) x) as [e|]; rewrite IH; cbn [logs calls add_log add_call];
      rewrite <- !app_assoc; reflexivity.
Qed.

Lemma notifyEach_notify_log (env : Env) (l : list string) :
  forall s f w,
    snd (notifyEach (notifyTraceConcluded env) l s f w)
    = mkWorld (logs w ++ notifyLines env (calls w) l)
              (calls w ++ map (analyzeCall env) l).
Proof.
  induction l as [|x l IH]; intros s f w.
  - cbn. rewrite !app_nil_r. destruct w; reflexivity.
  - rewrite notifyEach_cons, notifyTraceConcluded_eq.
    cbn [notifyLines map]. rewrite IH. cbn [logs calls add_log].
    rewrite <- !app_assoc. reflexivity.
Qed.

Lemma processConcludedTraces_eq
    (env : Env) (traceId : string) (rest : list string) (w : World) :
  processConcludedTraces env (traceId :: rest) w
  = (Returned (S (length rest)),
     mkWorld
       (logs w ++ processingEntry (S (length rest))
               :: notifyLines env (calls w) (traceId :: rest)
               ++ [summaryEntry (S (length rest)) 0])
       (calls w ++ map (analyzeCall env) (traceId :: rest))).
Proof.
  unfold processConcludedTraces.
  rewrite processConcludedTracesWith_cons.
  pose proof (notifyEach_notify_log env (traceId :: rest) 0 0
                (add_log (processingEntry (S (length rest))) w)) as Hw.
  destruct (notifyEach_notifyTraceConcluded env (traceId :: rest) 0 0
              (add_log (processingEntry (S (length rest))) w)) as [w' [E _]].
  unfold processingEntry in *. rewrite E in *. cbn [snd] in Hw. subst w'.
  cbn [fst snd calls logs add_log Nat.add length]. unfold add_log. cbn [logs calls].
  rewrite <- !app_assoc. reflexivity.
Qed.

(** The cycle hands what the detector returns to the notifier, which never
    throws. *)
Lemma checkAndProcess_eq (env : Env) (w w1 : World) (ids : list string) :
  findConcludedTraces env w = (Returned ids, w1) ->
  checkAndProcessConcludedTraces env w = processConcludedTraces env ids w1.
Proof.
  intros E. unfold checkAndProcessConcludedTraces, checkAndProcessWith, try_catch, bind.
  rewrite E. destruct (processConcludedTraces_posts env ids w1) as [w' [E' _]].
  rewrite E'. reflexivity.
Qed.

(** X4.  [notifyTraceConcluded] never throws.  It makes one POST, to
    [<base>/api/features/analyze] with the body [{ trace_id }]; when the
    POST is rejected it logs one error line, which carries the error as text
    and not as an object, and otherwise it logs nothing. *)
Theorem notifyTraceConcluded_swallows (env : Env) (traceId : string) (w : World) :
  notifyTraceConcluded env traceId w
  = (Returned tt,
     mkWorld
       (logs w ++ match postError env (calls w) traceId with
                  | None => []
                  | Some e => [swallowedEntry e]
                  end)
       (calls w ++ [analyzeCall env traceId])).
Proof. apply notifyTraceConcluded_eq. Qed.

(** X5.  The log of a pass over a list that is not empty, with a
    notification interface supplied from outside: the opening line with the
    number of candidates, then one line per candidate in the order of the
    list, a debug line naming the candidate when its call succeeded and an
    error line naming it and carrying the error when its call failed, then
    the summary, whose counts are the successes and the failures. *)
Theorem processConcludedTraces_log_external
    (answer : list Call -> string -> option Error)
    (traceId : string) (rest : list string) (w : World) :
  let traceIds := traceId :: rest in
  let ok := succeeded answer (calls w) traceIds in
  processConcludedTracesWith (externalNotifier answer) traceIds w
  = (Returned ok,
     mkWorld
       (logs w ++ processingEntry (length traceIds)
               :: externalLines answer (calls w) traceIds
               ++ [summaryEntry ok (length traceIds - ok)])
       (calls w ++ map NotifyCall traceIds)).
Proof.
  intros traceIds ok. subst traceIds. rewrite processConcludedTracesWith_cons.
  pose proof (notifyEach_external_log answer (traceId :: rest) 0 0
                (add_log (processingEntry (S (length rest))) w)) as Hw.
  destruct (notifyEach_external answer (traceId :: rest) 0 0
              (add_log (processingEntry (S (length rest))) w)) as [w' [E _]].
  unfold processingEntry in *. rewrite E in *. cbn [snd] in Hw. subst w'.
  cbn [fst snd calls logs add_log Nat.add]. unfold add_log. cbn [logs calls].
  subst ok. rewrite <- !app_assoc. reflexivity.
Qed.

(** X6.  The log of a pass with [notifyTraceConcluded]: after the opening
    line every candidate, in order, gets the line "Successfully notified",
    preceded by the error line of [notifyTraceConcluded] when its POST was
    rejected; the summary reports every candidate as succeeded and none as
    failed. *)
Theorem processConcludedTraces_log
    (env : Env) (traceId : string) (rest : list string) (w : World) :
  let traceIds := traceId :: rest in
  processConcludedTraces env traceIds w
  = (Returned (length traceIds),
     mkWorld
       (logs w ++ processingEntry (length traceIds)
               :: notifyLines env (calls w) traceIds
               ++ [summaryEntry (length traceIds) 0])
       (calls w ++ map (analyzeCall env) traceIds)).
Proof. intros traceIds. apply processConcludedTraces_eq. Qed.

(** X7.  A whole cycle over the rows the query returns: every row is posted,
    in the order of the rows and after the query, and the cycle returns the
    number of rows, whatever the API answered to the POSTs. *)
Theorem cycle_posts_every_row (env : Env) (w : World) (rows : list Row) :
  clickhouse env (calls w) (buildQuery INACTIVITY_THRESHOLD_SECONDS) = Rows rows ->
  exists w',
    checkAndProcessConcludedTraces env w = (Returned (length rows), w')
    /\ calls w'
       = calls w ++ detectionCall :: map (fun row => analyzeCall env (trace_id row)) rows.
Proof.
  intros H. pose proof (findConcludedTraces_rows env w rows H) as E.
  rewrite (checkAndProcess_eq env w _ _ E).
  destruct (processConcludedTraces_posts env (map trace_id rows)
              (if (0 <? length (map trace_id rows))%nat
               then add_log (mkLog Info ("Found " ++ showNat (length (map trace_id rows))
                                         ++ " concluded traces ready for processing")%string
                                   None) (add_call detectionCall w)
               else add_call detectionCall w)) as [w' [E' Hc]].
  exists w'. rewrite E', length_map. split; [reflexivity|].
  rewrite Hc, map_map.
  destruct (0 <? length (map trace_id rows))%nat; cbn [calls add_log add_call];
    rewrite <- app_assoc; reflexivity.
Qed.

Lemma cycle_posts_every_row_witness :
  exists w',
    checkAndProcessConcludedTraces Scenario.twoTraces emptyWorld = (Returned 2, w')
    /\ calls w'
       = [detectionCall; analyzeCall Scenario.twoTraces "trace-1";
          analyzeCall Scenario.twoTraces "trace-2"].
Proof.
  exact (cycle_posts_every_row Scenario.twoTraces emptyWorld
           [mkRow "trace-1"; mkRow "trace-2"] eq_refl).
Defined.

(** X8.  [execute] never throws.  The first line it logs is the starting
    line.  The last is "processed N traces", at info level, when the query
    returned N rows with N positive, and "no traces to process", at debug
    level, when the query returned no row or was rejected. *)
Theorem execute_log (env : Env) (w : World) :
  exists middle w',
    execute env w
    = (Returned tt,
       add_log (match clickhouse env (calls w) (buildQuery INACTIVITY_THRESHOLD_SECONDS) with
                | Rows (row :: rows) => processedEntry (S (length rows))
                | _ => nothingToProcess
                end) w')
    /\ logs w' = logs w ++ cycleStarting :: middle.
Proof.
  unfold execute, executeWith, bind, logger_debug.
  fold cycleStarting.
  destruct (clickhouse env (calls w) (buildQuery INACTIVITY_THRESHOLD_SECONDS))
    as [[|row rows]|e] eqn:H.
  - pose proof (findConcludedTraces_rows env (add_log cycleStarting w) [] H) as E.
    rewrite (checkAndProcess_eq env _ _ _ E). cbn.
    do 2 eexists. split; [reflexivity|]. cbn. instantiate (1 := []). reflexivity.
  - pose proof (findConcludedTraces_rows env (add_log cycleStarting w) (row :: rows) H) as E.
    rewrite (checkAndProcess_eq env _ _ _ E). cbn [map length Nat.ltb Nat.leb].
    rewrite processConcludedTraces_eq. cbn [Nat.ltb Nat.leb length].
    do 2 eexists. split; [rewrite length_map; reflexivity|].
    cbn [logs calls add_log add_call]. rewrite <- !app_assoc. reflexivity.
  - pose proof (findConcludedTraces_rejected env (add_log cycleStarting w) e H) as E.
    rewrite (checkAndProcess_eq env _ _ _ E). cbn.
    do 2 eexists. split; [reflexivity|]. cbn. rewrite <- app_assoc. reflexivity.
Qed.

End PassLog.

(** ** The media storage client *)

Section MediaStorageProps.
Import JS Effects MediaStorage.
Context {StorageService : Type}.
Variable env : MediaEnv.
Variable getInstance : Config -> Error + StorageService.

Lemma getEach_built (buckets : list string) (client : StorageService)
    (st : State StorageService) :
  s3StorageServiceClient st = Some client ->
  getEach env getInstance buckets st = (map (fun _ => Returned client) buckets, st).
Proof.
  intros H. induction buckets as [|b bs IH]; cbn [getEach map]; [reflexivity|].
  unfold getMediaStorageServiceClient. rewrite H, IH. reflexivity.
Qed.

(** X9.  The storage client is built once.  When the first call succeeds,
    every later call returns the client of the first call whatever bucket
    name it is given, and the factory is called that one time only, with the
    bucket name of the first call. *)
Theorem storage_client_is_built_once
    (bucket : string) (later : list string) (client : StorageService) :
  getInstance (configFor env bucket) = inr client ->
  getEach env getInstance (bucket :: later) loaded
  = (map (fun _ => Returned client) (bucket :: later),
     mkState (Some client) [configFor env bucket]).
Proof.
  intros H. cbn [getEach]. unfold getMediaStorageServiceClient at 1.
  cbn [loaded s3StorageServiceClient built app]. rewrite H.
  rewrite (getEach_built later client); reflexivity.
Qed.

End MediaStorageProps.

Lemma storage_client_is_built_once_witness :
  MediaStorage.getEach
    (MediaStorage.mkMediaEnv None None None None "false" None None)
    (fun config => inr (MediaStorage.bucketName config))
    ["media"; "exports"] MediaStorage.loaded
  = ([Effects.Returned "media"; Effects.Returned "media"],
     MediaStorage.mkState (Some "media")
       [MediaStorage.mkConfig "media" None None None None false None None]).
Proof.
  exact (storage_client_is_built_once
           (MediaStorage.mkMediaEnv None None None None "false" None None)
           (fun config => inr (MediaStorage.bucketName config))
           "media" ["exports"] "media" eq_refl).
Defined.

(** ** The initialization script *)

Section InitializeProps.
Import JS Effects Initialize.

Lemma Adds_iret (P : DbOp -> Prop) {A : Type} (a : A) : Adds P (iret a).
Proof.
  intros r. exists [], []. cbn. rewrite !app_nil_r. destruct r; split; [reflexivity|constructor].
Qed.

Lemma Adds_warn (P : DbOp -> Prop) (msg : string) : Adds P (logger_warn msg).
Proof.
  intros r. exists [], [msg]. cbn. rewrite app_nil_r. split; [reflexivity|constructor].
Qed.

Lemma Adds_call (P : DbOp -> Prop) {A : Type} (op : DbOp)
    (answer : list DbOp -> Error + A) :
  P op -> Adds P (call op answer).
Proof.
  intros H r. exists [op], []. unfold call. rewrite app_nil_r.
  destruct (answer (ops r)); cbn; (split; [reflexivity | repeat constructor; exact H]).
Qed.

Lemma Adds_exec (P : DbOp -> Prop) (op : DbOp) (answer : list DbOp -> option Error) :
  P op -> Adds P (exec op answer).
Proof.
  intros H r. exists [op], []. unfold exec. rewrite app_nil_r.
  destruct (answer (ops r)); cbn; (split; [reflexivity | repeat constructor; exact H]).
Qed.

Lemma Adds_when (P : DbOp -> Prop) (b : bool) (c : IM unit) :
  (b = true -> Adds P c) -> Adds P (when b c).
Proof. intros H. destruct b; [apply H; reflexivity | apply Adds_iret]. Qed.

Lemma Adds_ibind (P : DbOp -> Prop) {A B : Type} (c : IM A) (k : A -> IM B) :
  Adds P c -> (forall a, Adds P (k a)) -> Adds P (ibind c k).
Proof.
  intros Hc Hk r. unfold ibind.
  destruct (Hc r) as [l1 [ws1 [E1 F1]]].
  destruct (c r) as [[a|e] r1]; cbn [snd] in E1; subst r1.
  - destruct (Hk a (mkRun (warnings r ++ ws1) (ops r ++ l1))) as [l2 [ws2 [E2 F2]]].
    exists (l1 ++ l2), (ws1 ++ ws2). rewrite E2. cbn [warnings ops].
    rewrite !app_assoc. split; [reflexivity | apply Forall_app; split; assumption].
  - exists l1, ws1. split; [reflexivity | exact F1].
Qed.

Lemma Adds_warnPartial (P : DbOp -> Prop) (env : InitEnv) : Adds P (warnPartial env).
Proof.
  unfold warnPartial.
  repeat first [ apply Adds_ibind; [|intros ?] | apply Adds_when; intros _ | apply Adds_warn ].
Qed.

Lemma Adds_warnIgnored (P : DbOp -> Prop) (env : InitEnv) : Adds P (warnIgnored env).
Proof.
  unfold warnIgnored.
  repeat first [ apply Adds_when; intros _ | apply Adds_warn ].
Qed.

(** From a run of the whole script to the calls it made. *)
Lemma Adds_start (P : DbOp -> Prop) {A : Type} (c : IM A) :
  Adds P c -> Forall P (ops (snd (c start))).
Proof. intros H. destruct (H start) as [l [ws [E F]]]. rewrite E. exact F. Qed.

Lemma Adds_ibind_call (P : DbOp -> Prop) {A B : Type} (op : DbOp)
    (answer : list DbOp -> Error + A) (k : A -> IM B) :
  P op -> (forall h a, answer h = inr a -> Adds P (k a)) ->
  Adds P (ibind (call op answer) k).
Proof.
  intros Hop Hk r. unfold ibind, call.
  destruct (answer (ops r)) as [e|a] eqn:E.
  - exists [op], []. rewrite app_nil_r. split; [reflexivity | repeat constructor; exact Hop].
  - destruct (Hk (ops r) a E (mkRun (warnings r) (ops r ++ [op]))) as [l [ws [E2 F2]]].
    exists (op :: l), ws. rewrite E2. cbn [warnings ops]. rewrite <- app_assoc.
    split; [reflexivity | constructor; assumption].
Qed.

(** Takes a block apart along its binds and tests, leaving the calls. *)
Ltac adds_step :=
  first [ apply Adds_ibind; [|intros ?]
        | apply Adds_when; intros ?
        | apply Adds_iret | apply Adds_warn | apply Adds_warnPartial
        | apply Adds_warnIgnored
        | apply Adds_call | apply Adds_exec ].

Lemma initialize_without_org_eq (sv : Services) (env : InitEnv) :
  truthy (ELASTICDASH_INIT_ORG_ID env) = None ->
  initialize sv env start
  = (Returned tt,
     mkRun (match setInitVars env with
            | [] => []
            | vars => [ignoredWarning vars]
            end) []).
Proof.
  intros H.
  unfold initialize, createOrganization, warnIgnored, when, ibind, iret, logger_warn, start.
  rewrite H. cbn [isSet negb].
  destruct (setInitVars env) as [|v vars]; reflexivity.
Qed.

(** X10.  Without [ELASTICDASH_INIT_ORG_ID] the script touches nothing: it
    makes no call to the database, and it logs one warning, which lists the
    other [ELASTICDASH_INIT_*] variables that are set in the order of the
    script, when there is one, and nothing when there is none. *)
Theorem initialize_without_org (sv : Services) (env : InitEnv) :
  truthy (ELASTICDASH_INIT_ORG_ID env) = None ->
  initialize sv env start
  = (Returned tt,
     mkRun (match setInitVars env with
            | [] => []
            | vars => [ignoredWarning vars]
            end) []).
Proof. apply initialize_without_org_eq. Qed.

(** The project block and the user block attach what they write to the
    organization they are given. *)
Lemma Adds_attached_createProject (sv : Services) (env : InitEnv) (orgId : string) :
  Adds (attachedTo orgId) (createProject sv env orgId).
Proof.
  unfold createProject, addApiKeys.
  destruct (truthy (ELASTICDASH_INIT_PROJECT_ID env)); [|apply Adds_iret].
  apply Adds_ibind; [apply Adds_exec; reflexivity | intros _].
  destruct (truthy (ELASTICDASH_INIT_PROJECT_SECRET_KEY env));
    destruct (truthy (ELASTICDASH_INIT_PROJECT_PUBLIC_KEY env));
    repeat adds_step; exact I.
Qed.

Lemma Adds_attached_createUser (sv : Services) (env : InitEnv) (orgId : string) :
  Adds (attachedTo orgId) (createUser sv env orgId).
Proof.
  unfold createUser.
  destruct (truthy (ELASTICDASH_INIT_USER_EMAIL env));
    destruct (truthy (ELASTICDASH_INIT_USER_PASSWORD env)); try apply Adds_iret.
  apply Adds_ibind; [apply Adds_call; exact I | intros existingUser].
  apply Adds_ibind; [|intros userId; apply Adds_exec; reflexivity].
  destruct (truthy existingUser); [apply Adds_iret | apply Adds_call; exact I].
Qed.

Lemma warnIgnored_eq (env : InitEnv) (r : Run) :
  exists ws, warnIgnored env r = (Returned tt, mkRun (warnings r ++ ws) (ops r)).
Proof.
  unfold warnIgnored, when, iret, logger_warn.
  destruct (negb _); [destruct (0 <? _)%nat|].
  - eexists; reflexivity.
  - exists []. rewrite app_nil_r. destruct r; reflexivity.
  - exists []. rewrite app_nil_r. destruct r; reflexivity.
Qed.

Lemma initialize_eq (sv : Services) (env : InitEnv) :
  exists ws, initialize sv env start = createOrganization sv env (mkRun ws []).
Proof.
  destruct (warnIgnored_eq env start) as [ws E]. exists ws.
  unfold initialize, ibind. rewrite E. reflexivity.
Qed.

Lemma Adds_attached_rest (sv : Services) (env : InitEnv) (orgId : string) :
  Adds (attachedTo orgId)
    (ibind (warnPartial env) (fun _ =>
       ibind (createProject sv env orgId) (fun _ => createUser sv env orgId))).
Proof.
  apply Adds_ibind; [apply Adds_warnPartial | intros _].
  apply Adds_ibind; [apply Adds_attached_createProject | intros _].
  apply Adds_attached_createUser.
Qed.

Lemma createOrganization_first (sv : Services) (env : InitEnv) (ws0 : list string)
    (id : string) :
  truthy (ELASTICDASH_INIT_ORG_ID env) = Some id ->
  let name := orElse (ELASTICDASH_INIT_ORG_NAME env) "Provisioned Org" in
  ops (snd (createOrganization sv env (mkRun ws0 []))) = []
  \/ exists cloudConfig rest,
       ops (snd (createOrganization sv env (mkRun ws0 [])))
       = OrganizationUpsert id name cloudConfig :: rest
       /\ Forall (fun op => exists orgId,
                    organizationUpsert sv [] id name cloudConfig = inr orgId
                    /\ attachedTo orgId op) rest.
Proof.
  intros Hid name. unfold createOrganization. rewrite Hid. unfold ibind at 1.
  assert (G : forall cloudConfig,
             exists rest,
               ops (snd (ibind
                           (call (OrganizationUpsert id name cloudConfig)
                              (fun h => organizationUpsert sv h id name cloudConfig))
                           (fun orgId =>
                              ibind (warnPartial env) (fun _ =>
                                ibind (createProject sv env orgId) (fun _ =>
                                  createUser sv env orgId)))
                           (mkRun ws0 [])))
               = OrganizationUpsert id name cloudConfig :: rest
               /\ Forall (fun op => exists orgId,
                            organizationUpsert sv [] id name cloudConfig = inr orgId
                            /\ attachedTo orgId op) rest).
  { intros cloudConfig. unfold ibind at 1, call at 1. cbn [ops warnings app].
    destruct (organizationUpsert sv [] id name cloudConfig) as [e|orgId] eqn:Eo.
    - exists []. split; [reflexivity | constructor].
    - destruct (Adds_attached_rest sv env orgId
                  (mkRun ws0 [OrganizationUpsert id name cloudConfig]))
        as [l [ws [E F]]].
      exists l. rewrite E. split; [reflexivity|].
      eapply Forall_impl; [|exact F]. intros op Hop. exists orgId.
      split; [reflexivity | exact Hop]. }
  destruct (truthy (ELASTICDASH_INIT_ORG_CLOUD_PLAN env)) as [plan|].
  - destruct (cloudConfigParse sv plan) as [e|parsed]; [left; reflexivity|].
    right. exists (Some parsed). apply G.
  - right. exists None. apply G.
Qed.

(** X11.  The first call the script makes to the database is the upsert of
    the organization, with the configured identifier, and it makes that call
    once; every project and membership it writes afterwards names the
    organization that the upsert returned. *)
Theorem initialize_organization_first (sv : Services) (env : InitEnv) :
  ops (snd (initialize sv env start)) = []
  \/ exists id cloudConfig rest,
       let name := orElse (ELASTICDASH_INIT_ORG_NAME env) "Provisioned Org" in
       truthy (ELASTICDASH_INIT_ORG_ID env) = Some id
       /\ ops (snd (initialize sv env start))
          = OrganizationUpsert id name cloudConfig :: rest
       /\ Forall (fun op => exists orgId,
                    organizationUpsert sv [] id name cloudConfig = inr orgId
                    /\ attachedTo orgId op) rest.
Proof.
  destruct (truthy (ELASTICDASH_INIT_ORG_ID env)) as [id|] eqn:Hid.
  2:{ left. rewrite (initialize_without_org_eq sv env Hid). reflexivity. }
  destruct (initialize_eq sv env) as [ws0 E]. rewrite E.
  destruct (createOrganization_first sv env ws0 id Hid) as [H|[cfg [rest [H1 H2]]]].
  - left. exact H.
  - right. exists id, cfg, rest. cbn zeta. split; [reflexivity|]. split; assumption.
Qed.

(** The parsing of the cloud plan makes no call. *)
Lemma Adds_parse (P : DbOp -> Prop) (sv : Services) (plan : string) :
  Adds P (fun r => match cloudConfigParse sv plan with
                   | inr parsed => (Returned (Some parsed), r)
                   | inl e => (Thrown e, r)
                   end).
Proof.
  intros r. exists [], []. rewrite !app_nil_r.
  destruct (cloudConfigParse sv plan); destruct r; split; (reflexivity || constructor).
Qed.

Lemma Adds_configured (sv : Services) (env : InitEnv) :
  Adds (configured sv env) (initialize sv env).
Proof.
  unfold initialize. apply Adds_ibind; [apply Adds_warnIgnored | intros _].
  unfold createOrganization.
  destruct (truthy (ELASTICDASH_INIT_ORG_ID env)) as [id|] eqn:Hid; [|apply Adds_iret].
  apply Adds_ibind.
  { destruct (truthy (ELASTICDASH_INIT_ORG_CLOUD_PLAN env));
      [apply Adds_parse | apply Adds_iret]. }
  intros cloudConfig. apply Adds_ibind; [apply Adds_call; split; [exact Hid|reflexivity]|].
  intros orgId. apply Adds_ibind; [apply Adds_warnPartial | intros _].
  apply Adds_ibind; [|intros _].
  - unfold createProject, addApiKeys.
    destruct (truthy (ELASTICDASH_INIT_PROJECT_ID env)) as [projectId|] eqn:Hp;
      [|apply Adds_iret].
    apply Adds_ibind; [apply Adds_exec; split; [exact Hp|reflexivity] | intros _].
    destruct (truthy (ELASTICDASH_INIT_PROJECT_SECRET_KEY env)) as [secretKey|] eqn:Hs;
      destruct (truthy (ELASTICDASH_INIT_PROJECT_PUBLIC_KEY env)) as [publicKey|] eqn:Hk;
      try apply Adds_iret.
    repeat adds_step; cbn [configured]; rewrite ?Hp, ?Hs, ?Hk; repeat split; reflexivity.
  - unfold createUser.
    destruct (truthy (ELASTICDASH_INIT_USER_EMAIL env)) as [userEmail|] eqn:He;
      destruct (truthy (ELASTICDASH_INIT_USER_PASSWORD env)) as [password|] eqn:Hw;
      try apply Adds_iret.
    apply Adds_ibind.
    { apply Adds_call. split; [exists userEmail; split; [exact He|reflexivity]|].
      rewrite Hw. reflexivity. }
    intros existingUser. apply Adds_ibind.
    + destruct (truthy existingUser); [apply Adds_iret|].
      apply Adds_call. split; [exists userEmail; split; [exact He|reflexivity]|].
      split; [exact Hw | reflexivity].
    + intros userId. apply Adds_exec. cbn [configured]. rewrite He, Hw.
      split; reflexivity.
Qed.

(** X12.  Every call the script makes carries the configured values and is
    made only when the variables it needs are set: the identifiers, names and
    keys are those of [env], the user is looked up and created under the
    configured email in lower case, no call about the API key is made unless
    the project identifier and both keys are set, and none about the user
    unless the email and the password are set. *)
Theorem initialize_writes_what_is_configured (sv : Services) (env : InitEnv) :
  Forall (configured sv env) (ops (snd (initialize sv env start))).
Proof. apply Adds_start, Adds_configured. Qed.

Lemma Adds_nothing_new (sv : Services) (env : InitEnv) :
  (forall h publicKey projectId,
      truthy (ELASTICDASH_INIT_PROJECT_ID env) = Some projectId ->
      apiKeyFindUnique sv h publicKey = inr (Some projectId)) ->
  (forall h email, exists c id, userFindUnique sv h email = inr (Some (String c id))) ->
  Adds (fun op => creates op = false) (initialize sv env).
Proof.
  intros Hkey Huser.
  unfold initialize. apply Adds_ibind; [apply Adds_warnIgnored | intros _].
  unfold createOrganization.
  destruct (truthy (ELASTICDASH_INIT_ORG_ID env)) as [id|] eqn:Hid; [|apply Adds_iret].
  apply Adds_ibind.
  { destruct (truthy (ELASTICDASH_INIT_ORG_CLOUD_PLAN env));
      [apply Adds_parse | apply Adds_iret]. }
  intros cloudConfig. apply Adds_ibind; [apply Adds_call; reflexivity|].
  intros orgId. apply Adds_ibind; [apply Adds_warnPartial | intros _].
  apply Adds_ibind; [|intros _].
  - unfold createProject, addApiKeys.
    destruct (truthy (ELASTICDASH_INIT_PROJECT_ID env)) as [projectId|] eqn:Hp;
      [|apply Adds_iret].
    apply Adds_ibind; [apply Adds_exec; reflexivity | intros _].
    destruct (truthy (ELASTICDASH_INIT_PROJECT_SECRET_KEY env)) as [secretKey|];
      destruct (truthy (ELASTICDASH_INIT_PROJECT_PUBLIC_KEY env)) as [publicKey|];
      try apply Adds_iret.
    apply Adds_ibind_call; [reflexivity|]. intros h existing E.
    rewrite (Hkey h publicKey projectId eq_refl) in E. inversion E; subst existing.
    rewrite String.eqb_refl. cbn [negb isSet orb when].
    apply Adds_ibind; [apply Adds_iret | intros _; apply Adds_iret].
  - unfold createUser.
    destruct (truthy (ELASTICDASH_INIT_USER_EMAIL env)) as [userEmail|];
      destruct (truthy (ELASTICDASH_INIT_USER_PASSWORD env)) as [password|];
      try apply Adds_iret.
    apply Adds_ibind_call; [reflexivity|]. intros h existing E.
    destruct (Huser h (toLowerCase sv userEmail)) as [c [uid E']].
    rewrite E' in E. inversion E; subst existing. cbn [truthy].
    apply Adds_ibind; [apply Adds_iret | intros userId; apply Adds_exec; reflexivity].
Qed.

(** X13.  A run that finds everything in place creates nothing: when the
    API key found belongs to the configured project and the user is found,
    the script deletes no key, creates no key and creates no user. *)
Theorem initialize_creates_nothing_twice (sv : Services) (env : InitEnv) :
  (forall h publicKey projectId,
      truthy (ELASTICDASH_INIT_PROJECT_ID env) = Some projectId ->
      apiKeyFindUnique sv h publicKey = inr (Some projectId)) ->
  (forall h email, exists c id, userFindUnique sv h email = inr (Some (String c id))) ->
  Forall (fun op => creates op = false) (ops (snd (initialize sv env start))).
Proof. intros Hkey Huser. apply Adds_start, Adds_nothing_new; assumption. Qed.

(** *** Deletions are replaced *)

Lemma replaces_nil : replacesItsDeletions [].
Proof. intros after. reflexivity. Qed.

Lemma replaces_app (l1 l2 : list DbOp) :
  replacesItsDeletions l1 -> replacesItsDeletions l2 -> replacesItsDeletions (l1 ++ l2).
Proof. intros H1 H2 after. rewrite <- app_assoc, H1, H2. reflexivity. Qed.

Lemma replaces_one (op : DbOp) : notDelete op -> replacesItsDeletions [op].
Proof. intros H after. destruct op; cbn in *; (reflexivity || contradiction). Qed.

Lemma replaces_delete_create (entityId secretKey publicKey : string) :
  replacesItsDeletions
    [ApiKeyDelete publicKey; CreateAndAddApiKeysToDb entityId secretKey publicKey].
Proof. intros after. cbn. rewrite String.eqb_refl. reflexivity. Qed.

Lemma replaces_Forall (l : list DbOp) : Forall notDelete l -> replacesItsDeletions l.
Proof.
  induction 1 as [|op l H _ IH]; [apply replaces_nil|].
  change (op :: l) with ([op] ++ l). apply replaces_app; [apply replaces_one, H | exact IH].
Qed.

Lemma Completes_of_Adds {A : Type} (c : IM A) :
  Adds notDelete c -> Completes replacesItsDeletions c.
Proof.
  intros H r. destruct (H r) as [l [ws [E F]]]. exists l, ws.
  split; [exact E | intros _ _; apply replaces_Forall, F].
Qed.

Lemma Completes_ibind {A B : Type} (c : IM A) (k : A -> IM B) :
  Completes replacesItsDeletions c ->
  (forall a, Completes replacesItsDeletions (k a)) ->
  Completes replacesItsDeletions (ibind c k).
Proof.
  intros Hc Hk r. unfold ibind.
  destruct (Hc r) as [l1 [ws1 [E1 T1]]].
  destruct (c r) as [[a|e] r1]; cbn [snd fst] in *; subst r1.
  - destruct (Hk a (mkRun (warnings r ++ ws1) (ops r ++ l1))) as [l2 [ws2 [E2 T2]]].
    exists (l1 ++ l2), (ws1 ++ ws2). rewrite E2. cbn [warnings ops].
    rewrite !app_assoc. split; [reflexivity|].
    intros b Hb. apply replaces_app; [apply (T1 a); reflexivity | apply (T2 b), Hb].
  - exists l1, ws1. split; [reflexivity | intros b Hb; discriminate].
Qed.

Lemma Completes_delete_create (entityId secretKey publicKey : string)
    (a1 a2 : list DbOp -> option Error) :
  Completes replacesItsDeletions
    (ibind (exec (ApiKeyDelete publicKey) a1)
       (fun _ => exec (CreateAndAddApiKeysToDb entityId secretKey publicKey) a2)).
Proof.
  intros r. unfold ibind, exec. destruct (a1 (ops r)) as [e|].
  - exists [ApiKeyDelete publicKey], []. rewrite app_nil_r.
    split; [reflexivity | intros a H; discriminate].
  - cbn [ops warnings].
    exists [ApiKeyDelete publicKey; CreateAndAddApiKeysToDb entityId secretKey publicKey], [].
    rewrite app_nil_r, <- app_assoc.
    destruct (a2 _); (split; [reflexivity | intros _ _; apply replaces_delete_create]).
Qed.

Lemma Completes_addApiKeys (sv : Services) (projectId secretKey publicKey : string) :
  Completes replacesItsDeletions (addApiKeys sv projectId secretKey publicKey).
Proof.
  unfold addApiKeys. apply Completes_ibind.
  { apply Completes_of_Adds, Adds_call. exact I. }
  intros [keyProject|].
  - destruct (negb (String.eqb keyProject projectId)); cbn [isSet negb orb when].
    + apply Completes_delete_create.
    + apply Completes_of_Adds. apply Adds_ibind; [apply Adds_iret | intros _; apply Adds_iret].
  - cbn [isSet negb orb when]. apply Completes_of_Adds.
    apply Adds_ibind; [apply Adds_iret | intros _; apply Adds_exec; exact I].
Qed.

Lemma Adds_notDelete_createUser (sv : Services) (env : InitEnv) (orgId : string) :
  Adds notDelete (createUser sv env orgId).
Proof.
  unfold createUser.
  destruct (truthy (ELASTICDASH_INIT_USER_EMAIL env));
    destruct (truthy (ELASTICDASH_INIT_USER_PASSWORD env)); try apply Adds_iret.
  apply Adds_ibind; [apply Adds_call; exact I | intros existingUser].
  apply Adds_ibind; [|intros userId; apply Adds_exec; exact I].
  destruct (truthy existingUser); [apply Adds_iret | apply Adds_call; exact I].
Qed.

Lemma Completes_initialize (sv : Services) (env : InitEnv) :
  Completes replacesItsDeletions (initialize sv env).
Proof.
  unfold initialize.
  apply Completes_ibind; [apply Completes_of_Adds, Adds_warnIgnored | intros _].
  unfold createOrganization.
  destruct (truthy (ELASTICDASH_INIT_ORG_ID env)); [|apply Completes_of_Adds, Adds_iret].
  apply Completes_ibind.
  { apply Completes_of_Adds.
    destruct (truthy (ELASTICDASH_INIT_ORG_CLOUD_PLAN env));
      [apply Adds_parse | apply Adds_iret]. }
  intros cloudConfig.
  apply Completes_ibind; [apply Completes_of_Adds, Adds_call; exact I | intros orgId].
  apply Completes_ibind; [apply Completes_of_Adds, Adds_warnPartial | intros _].
  apply Completes_ibind; [|intros _; apply Completes_of_Adds, Adds_notDelete_createUser].
  unfold createProject.
  destruct (truthy (ELASTICDASH_INIT_PROJECT_ID env)); [|apply Completes_of_Adds, Adds_iret].
  apply Completes_ibind; [apply Completes_of_Adds, Adds_exec; exact I | intros _].
  destruct (truthy (ELASTICDASH_INIT_PROJECT_SECRET_KEY env));
    destruct (truthy (ELASTICDASH_INIT_PROJECT_PUBLIC_KEY env));
    try apply Completes_of_Adds, Adds_iret.
  apply Completes_addApiKeys.
Qed.

Lemma deleteIsReplaced_spec (l : list DbOp) :
  deleteIsReplaced l = true ->
  forall before after publicKey,
    l = before ++ ApiKeyDelete publicKey :: after ->
    exists entityId secretKey rest,
      after = CreateAndAddApiKeysToDb entityId secretKey publicKey :: rest.
Proof.
  induction l as [|op l IH]; intros H before after pk E.
  - destruct before; discriminate.
  - destruct before as [|b before]; cbn in E; inversion E; subst.
    + cbn in H. destruct after as [|[] after]; try discriminate.
      apply andb_true_iff in H. destruct H as [H _]. apply String.eqb_eq in H.
      subst. eauto.
    + apply (IH) with (before := before); [|reflexivity].
      destruct b; cbn in H; try exact H.
      destruct (before ++ ApiKeyDelete pk :: after) as [|[] ?]; try discriminate.
      apply andb_true_iff in H. apply H.
Qed.

(** X14.  A key is replaced, never just deleted: in every run of the script
    that completes, a deletion of the API key is followed at once by the
    creation of a key with the same public key. *)
Theorem initialize_replaces_deleted_key (sv : Services) (env : InitEnv) :
  fst (initialize sv env start) = Returned tt ->
  forall before after publicKey,
    ops (snd (initialize sv env start)) = before ++ ApiKeyDelete publicKey :: after ->
    exists entityId secretKey rest,
      after = CreateAndAddApiKeysToDb entityId secretKey publicKey :: rest.
Proof.
  intros Hret. apply deleteIsReplaced_spec.
  destruct (Completes_initialize sv env start) as [l [ws [E T]]].
  rewrite E. cbn [ops start app].
  rewrite <- (app_nil_r l). rewrite (T tt Hret). reflexivity.
Qed.

End InitializeProps.

Lemma initialize_without_org_witness :
  Initialize.initialize InitScenario.movedKey InitScenario.noOrg Initialize.start
  = (Effects.Returned tt,
     Initialize.mkRun
       [Initialize.ignoredWarning
          ["ELASTICDASH_INIT_ORG_NAME"; "ELASTICDASH_INIT_USER_EMAIL"]] []).
Proof.
  exact (initialize_without_org InitScenario.movedKey InitScenario.noOrg eq_refl).
Defined.

Lemma initialize_creates_nothing_twice_witness :
  Forall (fun op => Initialize.creates op = false)
    (Initialize.ops (snd (Initialize.initialize InitScenario.inPlace InitScenario.full
                            Initialize.start))).
Proof.
  apply initialize_creates_nothing_twice.
  - intros h publicKey projectId H. cbn in H. inversion H. reflexivity.
  - intros h email. do 2 eexists. reflexivity.
Defined.

Lemma initialize_replaces_deleted_key_witness :
  exists entityId secretKey rest,
    [Initialize.CreateAndAddApiKeysToDb "proj-1" "sk-1" "pk-1";
     Initialize.UserFindUnique "ada@example.com";
     Initialize.CreateUserEmailPassword "ada@example.com" "secret" "Provisioned User";
     Initialize.OrganizationMembershipUpsert "user-1" "org-1"]
    = Initialize.CreateAndAddApiKeysToDb entityId secretKey "pk-1" :: rest.
Proof.
  exact (initialize_replaces_deleted_key InitScenario.movedKey InitScenario.full eq_refl
           [Initialize.OrganizationUpsert "org-1" "Acme" None;
            Initialize.ProjectUpsert "proj-1" "Provisioned Project" "org-1" (Some 30%Z);
            Initialize.ApiKeyFindUnique "pk-1"]
           _ "pk-1" eq_refl).
Defined.

(** ** The transforms of env.ts *)

Section SkipProjectIds.
Import JS SharedEnv.
Local Open Scope string_scope.

Lemma split_not_nil (sep : ascii) (s : string) : split sep s <> [].
Proof.
  induction s as [|c s IH]; cbn [split]; [discriminate|].
  destruct (Ascii.eqb c sep); [discriminate|].
  destruct (split sep s); discriminate.
Qed.

Lemma split_length (sep : ascii) (s : string) :
  length (split sep s) = S (countOf sep s).
Proof.
  induction s as [|c s IH]; cbn [split countOf]; [reflexivity|].
  destruct (Ascii.eqb c sep); cbn [length]; [rewrite IH; reflexivity|].
  destruct (split sep s) as [|p ps] eqn:E; [exfalso; exact (split_not_nil sep s E)|].
  cbn [length] in *. exact IH.
Qed.

Lemma split_pieces (sep : ascii) (s piece : string) :
  In piece (split sep s) -> countOf sep piece = 0.
Proof.
  revert piece. induction s as [|c s IH]; cbn [split]; intros piece H.
  - destruct H as [<-|[]]. reflexivity.
  - destruct (Ascii.eqb c sep) eqn:E.
    + destruct H as [<-|H]; [reflexivity | apply IH, H].
    + destruct (split sep s) as [|p ps] eqn:Es; [exfalso; exact (split_not_nil sep s Es)|].
      destruct H as [<-|H].
      * cbn [countOf]. rewrite E. apply IH. left. reflexivity.
      * apply IH. right. exact H.
Qed.

Lemma countOf_app (c : ascii) (a b : string) :
  countOf c (a ++ b) = countOf c a + countOf c b.
Proof. induction a as [|x a IH]; cbn [append countOf]; [reflexivity | rewrite IH; lia]. Qed.

(** Induction on a string whose hypothesis covers the three tails that
    [trimStart] may continue with. *)
Lemma string_ind3 (P : string -> Prop) :
  P "" ->
  (forall a s,
      P s ->
      (forall b s', s = String b s' -> P s') ->
      (forall b c s'', s = String b (String c s'') -> P s'') ->
      P (String a s)) ->
  forall s, P s.
Proof.
  intros H0 Hs.
  assert (G : forall n s, String.length s <= n -> P s).
  { induction n as [|n IH]; intros s Hl.
    - destruct s; [exact H0 | cbn in Hl; lia].
    - destruct s as [|a s]; [exact H0|]. cbn in Hl. apply Hs.
      + apply IH. lia.
      + intros b s' ->. apply IH. cbn in Hl. lia.
      + intros b c s'' ->. apply IH. cbn in Hl. lia. }
  intros s. apply (G (String.length s)). lia.
Qed.

(** [trimStart] drops a prefix. *)
Lemma trimStart_suffix (s : string) : exists dropped, s = dropped ++ trimStart s.
Proof.
  induction s as [|a s IH1 IH2 IH3] using string_ind3; [exists ""; reflexivity|].
  cbn [trimStart]. destruct (isSpace1 a).
  { destruct IH1 as [d E]. exists (String a d). cbn. rewrite <- E. reflexivity. }
  destruct s as [|b s]; [exists ""; reflexivity|].
  destruct (isSpace2 a b).
  { destruct (IH2 b s eq_refl) as [d E]. exists (String a (String b d)).
    cbn. rewrite <- E. reflexivity. }
  destruct s as [|c s]; [exists ""; reflexivity|].
  destruct (isSpace3 a b c); [|exists ""; reflexivity].
  destruct (IH3 b c s eq_refl) as [d E]. exists (String a (String b (String c d))).
  cbn. rewrite <- E. reflexivity.
Qed.

Lemma trimStartReversed_suffix (s : string) :
  exists dropped, s = dropped ++ trimStartReversed s.
Proof.
  induction s as [|a s IH1 IH2 IH3] using string_ind3; [exists ""; reflexivity|].
  cbn [trimStartReversed]. destruct (isSpace1 a).
  { destruct IH1 as [d E]. exists (String a d). cbn. rewrite <- E. reflexivity. }
  destruct s as [|b s]; [exists ""; reflexivity|].
  destruct (isSpace2 b a).
  { destruct (IH2 b s eq_refl) as [d E]. exists (String a (String b d)).
    cbn. rewrite <- E. reflexivity. }
  destruct s as [|c s]; [exists ""; reflexivity|].
  destruct (isSpace3 c b a); [|exists ""; reflexivity].
  destruct (IH3 b c s eq_refl) as [d E]. exists (String a (String b (String c d))).
  cbn. rewrite <- E. reflexivity.
Qed.

(** What [trimStart] returns does not begin with white space. *)
Lemma trimStart_clean (s : string) : startsWithSpace (trimStart s) = false.
Proof.
  induction s as [|a s IH1 IH2 IH3] using string_ind3; [reflexivity|].
  cbn [trimStart]. destruct (isSpace1 a) eqn:E1; [exact IH1|].
  destruct s as [|b s]; [cbn; exact E1|].
  destruct (isSpace2 a b) eqn:E2; [exact (IH2 b s eq_refl)|].
  destruct s as [|c s]; [cbn; rewrite E1, E2; reflexivity|].
  destruct (isSpace3 a b c) eqn:E3; [exact (IH3 b c s eq_refl)|].
  cbn. rewrite E1, E2, E3. reflexivity.
Qed.

Lemma trimStartReversed_clean (s : string) :
  startsWithSpaceReversed (trimStartReversed s) = false.
Proof.
  induction s as [|a s IH1 IH2 IH3] using string_ind3; [reflexivity|].
  cbn [trimStartReversed]. destruct (isSpace1 a) eqn:E1; [exact IH1|].
  destruct s as [|b s]; [cbn; exact E1|].
  destruct (isSpace2 b a) eqn:E2; [exact (IH2 b s eq_refl)|].
  destruct s as [|c s]; [cbn; rewrite E1, E2; reflexivity|].
  destruct (isSpace3 c b a) eqn:E3; [exact (IH3 b c s eq_refl)|].
  cbn. rewrite E1, E2, E3. reflexivity.
Qed.

(** A string that does not begin with white space is left as it is. *)
Lemma trimStart_fixed (s : string) : startsWithSpace s = false -> trimStart s = s.
Proof.
  destruct s as [|a [|b [|c s]]]; cbn; intros H; try reflexivity.
  - rewrite H. reflexivity.
  - apply orb_false_iff in H. destruct H as [H1 H2]. rewrite H1, H2. reflexivity.
  - apply orb_false_iff in H. destruct H as [H H3].
    apply orb_false_iff in H. destruct H as [H1 H2]. rewrite H1, H2, H3. reflexivity.
Qed.

Lemma trimStartReversed_fixed (s : string) :
  startsWithSpaceReversed s = false -> trimStartReversed s = s.
Proof.
  destruct s as [|a [|b [|c s]]]; cbn; intros H; try reflexivity.
  - rewrite H. reflexivity.
  - apply orb_false_iff in H. destruct H as [H1 H2]. rewrite H1, H2. reflexivity.
  - apply orb_false_iff in H. destruct H as [H H3].
    apply orb_false_iff in H. destruct H as [H1 H2]. rewrite H1, H2, H3. reflexivity.
Qed.

Lemma append_nil_r (s : string) : s ++ "" = s.
Proof. induction s as [|c s IH]; cbn; [reflexivity | rewrite IH; reflexivity]. Qed.

Lemma append_assoc (a b c : string) : (a ++ b) ++ c = a ++ (b ++ c).
Proof. induction a as [|x a IH]; cbn; [reflexivity | rewrite IH; reflexivity]. Qed.

Lemma reverseOnto_eq (s acc : string) : reverseOnto s acc = reverse s ++ acc.
Proof.
  unfold reverse. revert acc. induction s as [|c s IH]; intros acc; cbn; [reflexivity|].
  rewrite IH, (IH (String c "")), append_assoc. reflexivity.
Qed.

Lemma reverse_app (a b : string) : reverse (a ++ b) = reverse b ++ reverse a.
Proof.
  induction a as [|c a IH]; cbn [append].
  - cbn. rewrite append_nil_r. reflexivity.
  - unfold reverse at 1 3. cbn [reverseOnto].
    rewrite !reverseOnto_eq, IH, append_assoc. reflexivity.
Qed.

Lemma reverse_involutive (s : string) : reverse (reverse s) = s.
Proof.
  induction s as [|c s IH]; [reflexivity|].
  unfold reverse at 2. cbn [reverseOnto]. rewrite reverseOnto_eq, reverse_app, IH.
  reflexivity.
Qed.

(** [trimEnd] drops a suffix. *)
Lemma trimEnd_prefix (s : string) : exists dropped, s = trimEnd s ++ dropped.
Proof.
  unfold trimEnd. destruct (trimStartReversed_suffix (reverse s)) as [d E].
  exists (reverse d). rewrite <- reverse_app, <- E, reverse_involutive. reflexivity.
Qed.

(** A prefix of a string that does not begin with white space does not
    begin with white space. *)
Lemma startsWithSpace_prefix (p q : string) :
  startsWithSpace (p ++ q) = false -> startsWithSpace p = false.
Proof.
  destruct p as [|a [|b [|c p]]]; cbn; try tauto.
  - destruct q as [|b [|c q]]; intros H; try exact H.
    + apply orb_false_iff in H. tauto.
    + apply orb_false_iff in H. destruct H as [H _].
      apply orb_false_iff in H. tauto.
  - destruct q as [|c q]; intros H; [exact H|].
    apply orb_false_iff in H. tauto.
Qed.

Lemma trim_clean (s : string) :
  startsWithSpace (trim s) = false /\ endsWithSpace (trim s) = false.
Proof.
  unfold trim. split.
  - destruct (trimEnd_prefix (trimStart s)) as [d E].
    apply (startsWithSpace_prefix _ d). rewrite <- E. apply trimStart_clean.
  - unfold endsWithSpace, trimEnd. rewrite reverse_involutive.
    apply trimStartReversed_clean.
Qed.

Lemma trim_fixed (s : string) :
  startsWithSpace s = false -> endsWithSpace s = false -> trim s = s.
Proof.
  intros H1 H2. unfold trim, trimEnd. rewrite (trimStart_fixed s H1).
  unfold endsWithSpace in H2. rewrite (trimStartReversed_fixed _ H2).
  apply reverse_involutive.
Qed.

Lemma trim_countOf (c : ascii) (s : string) : countOf c s = 0 -> countOf c (trim s) = 0.
Proof.
  intros H. unfold trim.
  destruct (trimStart_suffix s) as [d1 E1].
  destruct (trimEnd_prefix (trimStart s)) as [d2 E2].
  rewrite E1, E2, !countOf_app in H. lia.
Qed.

Lemma split_join (sep : ascii) (pieces : list string) :
  pieces <> [] ->
  Forall (fun piece => countOf sep piece = 0) pieces ->
  split sep (join sep pieces) = pieces.
Proof.
  intros Hne H. induction H as [|p ps Hp _ IH]; [contradiction|].
  assert (G : forall tail, split sep (p ++ tail)
                           = match split sep tail with
                             | piece :: rest => (p ++ piece) :: rest
                             | [] => [p]
                             end).
  { clear IH Hne. induction p as [|c p IHp]; intros tail.
    - cbn. destruct (split sep tail) eqn:E; [exfalso; exact (split_not_nil _ _ E)|reflexivity].
    - cbn [countOf] in Hp. destruct (Ascii.eqb c sep) eqn:Ec; [discriminate|].
      cbn [append split]. rewrite Ec, IHp by exact Hp.
      destruct (split sep tail); reflexivity. }
  destruct ps as [|q ps].
  - cbn [join]. rewrite <- (append_nil_r p) at 1. rewrite G. cbn.
    rewrite append_nil_r. reflexivity.
  - cbn [join]. rewrite G. cbn [split]. rewrite Ascii.eqb_refl.
    rewrite append_nil_r. f_equal. apply IH. discriminate.
Qed.

(** X15.  The list of project identifiers read from
    [ELASTICDASH_TRACE_DELETE_SKIP_PROJECT_IDS] is empty when the variable is
    unset or empty.  Otherwise it has one entry more than the text has
    commas: no entry is dropped, so a text of white space gives one empty
    entry and a doubled or trailing comma gives an empty entry. *)
Theorem skip_project_ids_count (c : ascii) (text : string) :
  ELASTICDASH_TRACE_DELETE_SKIP_PROJECT_IDS None = []
  /\ ELASTICDASH_TRACE_DELETE_SKIP_PROJECT_IDS (Some "") = []
  /\ length (ELASTICDASH_TRACE_DELETE_SKIP_PROJECT_IDS (Some (String c text)))
     = S (countOf comma (String c text)).
Proof.
  split; [reflexivity|]. split; [reflexivity|].
  unfold ELASTICDASH_TRACE_DELETE_SKIP_PROJECT_IDS. cbn [truthy].
  rewrite length_map. apply split_length.
Qed.

(** X16.  No entry of the list holds a comma, and none begins or ends with
    white space. *)
Theorem skip_project_ids_clean (s : option string) (id : string) :
  In id (ELASTICDASH_TRACE_DELETE_SKIP_PROJECT_IDS s) ->
  contains comma id = false
  /\ startsWithSpace id = false /\ endsWithSpace id = false.
Proof.
  unfold ELASTICDASH_TRACE_DELETE_SKIP_PROJECT_IDS.
  destruct (truthy s) as [text|]; [|intros []].
  intros H. apply in_map_iff in H. destruct H as [piece [<- H]].
  split; [|apply trim_clean].
  unfold contains. rewrite (trim_countOf comma piece (split_pieces comma text piece H)).
  reflexivity.
Qed.

(** X17.  Identifiers written with commas between them are read back as
    they were written: when no identifier holds a comma or begins or ends
    with white space, and the text they make is not empty, the list read
    from the text is the list of the identifiers. *)
Theorem skip_project_ids_round_trip (ids : list string) :
  join comma ids <> "" ->
  Forall (fun id => contains comma id = false
                    /\ startsWithSpace id = false /\ endsWithSpace id = false) ids ->
  ELASTICDASH_TRACE_DELETE_SKIP_PROJECT_IDS (Some (join comma ids)) = ids.
Proof.
  intros Hne H. unfold ELASTICDASH_TRACE_DELETE_SKIP_PROJECT_IDS.
  destruct (join comma ids) as [|c text] eqn:E; [contradiction|].
  cbn [truthy]. rewrite <- E. rewrite split_join.
  - clear E Hne. induction H as [|id ids [_ [H1 H2]] _ IH]; [reflexivity|].
    cbn [map]. rewrite (trim_fixed id H1 H2), IH. reflexivity.
  - intros ->. discriminate.
  - eapply Forall_impl; [|exact H]. intros id [Hc _]. unfold contains in Hc.
    apply negb_false_iff, Nat.eqb_eq in Hc. exact Hc.
Qed.

Lemma skip_project_ids_clean_witness :
  contains comma "b" = false /\ startsWithSpace "b" = false /\ endsWithSpace "b" = false.
Proof.
  apply (skip_project_ids_clean (Some " a , b ,c") "b").
  vm_compute. right. left. reflexivity.
Defined.

Lemma skip_project_ids_round_trip_witness :
  ELASTICDASH_TRACE_DELETE_SKIP_PROJECT_IDS (Some "proj-1,,proj 2") = ["proj-1"; ""; "proj 2"].
Proof.
  apply (skip_project_ids_round_trip ["proj-1"; ""; "proj 2"]).
  - vm_compute. discriminate.
  - repeat constructor.
Defined.

End SkipProjectIds.

Section SampledProjects.
Import JS SharedEnv.
Variable Rate : Type.
Variable parseRate : string -> option Rate.

Lemma mapGet_mapSet_same (key : string) (rate : Rate) (m : RateMap Rate) :
  mapGet Rate key (mapSet Rate key rate m) = Some rate.
Proof.
  induction m as [|[k r] m IH]; cbn [mapSet mapGet].
  - rewrite String.eqb_refl. reflexivity.
  - destruct (String.eqb k key) eqn:E; cbn [mapGet]; rewrite E; [reflexivity | exact IH].
Qed.

Lemma mapGet_mapSet_other (key other : string) (rate : Rate) (m : RateMap Rate) :
  String.eqb other key = false ->
  mapGet Rate key (mapSet Rate other rate m) = mapGet Rate key m.
Proof.
  intros H. induction m as [|[k r] m IH]; cbn [mapSet mapGet].
  - rewrite H. reflexivity.
  - destruct (String.eqb k other) eqn:E; cbn [mapGet].
    + apply String.eqb_eq in E. subst k. rewrite H. reflexivity.
    + destruct (String.eqb k key); [reflexivity | exact IH].
Qed.

Lemma addParts_none (parts : list string) :
  forall m,
    (exists part, In part parts /\ parsePart Rate parseRate part = None) ->
    addParts Rate parseRate parts m = None.
Proof.
  induction parts as [|p parts IH]; intros m [part [Hin Hp]]; [contradiction|].
  cbn [addParts]. destruct (parsePart Rate parseRate p) as [[projectId rate]|] eqn:E;
    [|reflexivity].
  apply IH. destruct Hin as [->|Hin]; [congruence | eauto].
Qed.

Lemma addParts_some (parts : list string) :
  forall m,
    (forall part, In part parts -> parsePart Rate parseRate part <> None) ->
    exists m',
      addParts Rate parseRate parts m = Some m'
      /\ forall key,
           mapGet Rate key m'
           = match lastRate Rate key (pairsOf Rate parseRate parts) with
             | Some rate => Some rate
             | None => mapGet Rate key m
             end.
Proof.
  induction parts as [|p parts IH]; intros m H.
  - exists m. split; reflexivity.
  - cbn [addParts pairsOf flat_map].
    destruct (parsePart Rate parseRate p) as [[projectId rate]|] eqn:E.
    2:{ exfalso. apply (H p); [left; reflexivity | exact E]. }
    destruct (IH (mapSet Rate projectId rate m)) as [m' [E' G]].
    { intros part Hin. apply H. right. exact Hin. }
    exists m'. split; [exact E'|]. intros key. rewrite G. cbn [app lastRate].
    fold (pairsOf Rate parseRate parts).
    destruct (lastRate Rate key (pairsOf Rate parseRate parts)); [reflexivity|].
    destruct (String.eqb projectId key) eqn:Ek.
    + apply String.eqb_eq in Ek. subst. apply mapGet_mapSet_same.
    + apply mapGet_mapSet_other, Ek.
Qed.

(** X18.  [ELASTICDASH_INGESTION_PROCESSING_SAMPLED_PROJECTS] is read all or
    nothing: when one part of the text is refused (no colon, an empty project
    identifier, or a rate that does not parse), the map is empty, whatever
    the other parts hold. *)
Theorem sampled_projects_all_or_nothing (val : option string) (text part : string) :
  truthy val = Some text ->
  In part (split comma text) ->
  parsePart Rate parseRate part = None ->
  ELASTICDASH_INGESTION_PROCESSING_SAMPLED_PROJECTS Rate parseRate val = [].
Proof.
  intros Hv Hin Hp. unfold ELASTICDASH_INGESTION_PROCESSING_SAMPLED_PROJECTS.
  rewrite Hv, addParts_none; [reflexivity|]. exists part. split; assumption.
Qed.

(** X19.  When every part of the text is accepted, the map gives each
    project the rate of the last part that names it, and gives nothing for a
    project that no part names. *)
Theorem sampled_projects_last_wins (val : option string) (text key : string) :
  truthy val = Some text ->
  (forall part, In part (split comma text) -> parsePart Rate parseRate part <> None) ->
  mapGet Rate key (ELASTICDASH_INGESTION_PROCESSING_SAMPLED_PROJECTS Rate parseRate val)
  = lastRate Rate key (pairsOf Rate parseRate (split comma text)).
Proof.
  intros Hv H. unfold ELASTICDASH_INGESTION_PROCESSING_SAMPLED_PROJECTS. rewrite Hv.
  destruct (addParts_some (split comma text) [] H) as [m' [E G]].
  rewrite E, G. destruct (lastRate Rate key _); reflexivity.
Qed.

End SampledProjects.

Lemma sampled_projects_all_or_nothing_witness :
  SharedEnv.ELASTICDASH_INGESTION_PROCESSING_SAMPLED_PROJECTS string SharedEnv.exampleRate
    (Some "proj-a:0.5,proj-b:1,") = [].
Proof.
  apply (sampled_projects_all_or_nothing string SharedEnv.exampleRate
           (Some "proj-a:0.5,proj-b:1,") "proj-a:0.5,proj-b:1," "").
  - reflexivity.
  - vm_compute. right. right. left. reflexivity.
  - reflexivity.
Defined.

Lemma sampled_projects_last_wins_witness :
  SharedEnv.mapGet string "proj-a"
    (SharedEnv.ELASTICDASH_INGESTION_PROCESSING_SAMPLED_PROJECTS string SharedEnv.exampleRate
       (Some "proj-a:0.5,proj-b:1,proj-a:0.2"))
  = Some "0.2".
Proof.
  apply (sampled_projects_last_wins string SharedEnv.exampleRate
           (Some "proj-a:0.5,proj-b:1,proj-a:0.2") "proj-a:0.5,proj-b:1,proj-a:0.2" "proj-a").
  - reflexivity.
  - vm_compute. intros part [<-|[<-|[<-|[]]]]; discriminate.
Defined.

